(** * lazy-map: lazily evaluated, memoizing record mappings

    A shallow embedding of [src/lib/mapping.ts].  The six proxy traps of
    [handlers] are embedded as functions on the [ProxyTarget] record; the
    property functions of a [MappingSpec] are embedded as programs that run
    with the lazy record as their [this], so that they can read, write and
    delete its fields while a read of the record is in progress.

    A read may run property functions that read the record again, to any
    depth, so [get] takes a bound on that depth.  Every operation that can
    run property functions returns, besides its result and the record it
    leaves, the list of the fields whose property functions it invoked: that
    list is what the test suite observes with [jest.fn].

    The store is an object literal: [in] and [[]] on it also find what every
    object inherits from [Object.prototype], and an assignment to
    [__proto__] goes to the inherited setter.  The prototype itself is no
    component of the record, so a store that has been given another
    prototype is outside the model. *)

From stdpp Require Import base decidable option list sorting strings pretty gmap.
From Stdlib Require Import ZArith NArith Ascii.

Local Open Scope string_scope.
Local Open Scope list_scope.

(** ** JavaScript values and objects *)

(** Property keys.  The traps also accept numbers and symbols; a number is
    converted to its string, and symbols are left out of the model. *)
Abbreviation Key := string.

Inductive value : Type :=
| VUndefined
| VNull
| VBoolean (b : bool)
| VNumber (n : Z)
| VNaN
| VString (s : string)
| VObject (ref : nat).

(** The abstract operation ToBoolean: what counts as truthy. *)
Definition ToBoolean (v : value) : bool :=
  match v with
  | VUndefined | VNull | VNaN => false
  | VBoolean b => b
  | VNumber n => negb (n =? 0)%Z
  | VString s => negb (String.eqb s "")
  | VObject _ => true
  end.

(** The abstract operation ToString, as used by [+] on strings.  Numbers
    are the integers that print without an exponent, those below [10^21]
    in magnitude. *)
Definition ToString (v : value) : string :=
  match v with
  | VUndefined => "undefined"
  | VNull => "null"
  | VBoolean true => "true"
  | VBoolean false => "false"
  | VNumber n => pretty n
  | VNaN => "NaN"
  | VString s => s
  | VObject _ => "[object Object]"
  end.

(** What a [throw] carries.  [TypeError] is the error the runtime itself
    raises; [Exception v] is a value thrown by a property function. *)
Inductive exn : Type :=
| TypeError
| Exception (v : value).

(** An object used as a map: its own properties in insertion order.  What
    the object inherits is [Object_prototype] below. *)
Abbreviation object A := (list (Key * A)).

(** [o[k]] for an own property. *)
Fixpoint obj_get {A} (o : object A) (k : Key) : option A :=
  match o with
  | [] => None
  | (k', a) :: o' => if decide (k = k') then Some a else obj_get o' k
  end.

(** [o[k] = a]: an existing property keeps its place, a new one is added
    at the end. *)
Fixpoint obj_set {A} (o : object A) (k : Key) (a : A) : object A :=
  match o with
  | [] => [(k, a)]
  | (k', a') :: o' =>
      if decide (k = k') then (k, a) :: o' else (k', a') :: obj_set o' k a
  end.

(** [delete o[k]]. *)
Fixpoint obj_delete {A} (o : object A) (k : Key) : object A :=
  match o with
  | [] => []
  | (k', a') :: o' =>
      if decide (k = k') then obj_delete o' k else (k', a') :: obj_delete o' k
  end.

(** The properties an object literal inherits from [Object.prototype], as
    the language defines it: the functions, and the accessor [__proto__],
    whose getter gives the prototype of the object it is read from, for an
    object literal [Object.prototype] itself.  The references 0 to 11 stand
    for [Object.prototype] and its functions. *)
Definition Object_prototype : object value :=
  [ ("constructor", VObject 1);
    ("hasOwnProperty", VObject 2);
    ("isPrototypeOf", VObject 3);
    ("propertyIsEnumerable", VObject 4);
    ("toLocaleString", VObject 5);
    ("toString", VObject 6);
    ("valueOf", VObject 7);
    ("__defineGetter__", VObject 8);
    ("__defineSetter__", VObject 9);
    ("__lookupGetter__", VObject 10);
    ("__lookupSetter__", VObject 11);
    ("__proto__", VObject 0) ].

(** [k in o] for an object literal [o]: [k] is an own or an inherited
    property. *)
Definition obj_in {A} (o : object A) (k : Key) : Prop :=
  k ∈ o.*1 ∨ k ∈ Object_prototype.*1.

#[global] Instance obj_in_dec {A} (o : object A) k : Decision (obj_in o k).
Proof. unfold obj_in. apply _. Defined.

(** [o[k]] for an object literal [o]: the own property, else the inherited
    one, else [undefined]. *)
Definition obj_read (o : object value) (k : Key) : value :=
  match obj_get o k with
  | Some v => v
  | None => default VUndefined (obj_get Object_prototype k)
  end.

(** [o[k] = v] for an object literal [o].  An own property is written; a
    name that [o] does not have, or inherits as a function, becomes an own
    property; [__proto__], unless it is an own property, is the inherited
    accessor, whose setter stores nothing: it ignores every value but an
    object or [null], and those it makes the prototype of [o].  The
    prototype is no component of an [object]: an [object] with another
    prototype than [Object.prototype] is not represented. *)
Definition obj_write (o : object value) (k : Key) (v : value) : object value :=
  if decide (k = "__proto__" ∧ k ∉ o.*1) then o else obj_set o k v.

(** The values the setter of [__proto__] takes for a prototype: objects and
    [null]. *)
Definition prototype_value (v : value) : bool :=
  match v with
  | VNull | VObject _ => true
  | _ => false
  end.

(** The digits of a key, read as a number. *)
Definition digit_of (c : ascii) : option N :=
  let n := N_of_ascii c in
  if decide (48 ≤ n ∧ n ≤ 57)%N then Some (n - 48)%N else None.

Fixpoint parse_digits (acc : N) (s : string) : option N :=
  match s with
  | EmptyString => Some acc
  | String c s' =>
      match digit_of c with
      | Some d => parse_digits (10 * acc + d)%N s'
      | None => None
      end
  end.

(** An array index is a canonical numeric string below [2^32 - 1]. *)
Definition array_index (k : Key) : option N :=
  match k with
  | EmptyString => None
  | String "0" EmptyString => Some 0%N
  | String "0" _ => None
  | _ =>
      match parse_digits 0 k with
      | Some n => if decide (n < 2 ^ 32 - 1)%N then Some n else None
      | None => None
      end
  end.

Definition index_le (a b : N * Key) : Prop := (a.1 ≤ b.1)%N.

#[global] Instance index_le_dec a b : Decision (index_le a b).
Proof. unfold index_le. apply _. Defined.

(** [Object.keys(o)]: the array indices in ascending order, then the other
    names in insertion order. *)
Definition Object_keys {A} (o : object A) : list Key :=
  (merge_sort index_le (omap (λ k, (λ n, (n, k)) <$> array_index k) o.*1)).*2
  ++ filter (λ k, array_index k = None) o.*1.

(** A [Set] of keys in insertion order: [add] keeps the first occurrence. *)
Definition Set_add (s : list Key) (k : Key) : list Key :=
  if decide (k ∈ s) then s else s ++ [k].

(** [Array.from(new Set(ks))]. *)
Definition Array_from_new_Set (ks : list Key) : list Key :=
  fold_left Set_add ks [].

(** A property descriptor; the fields a descriptor lacks are [None]. *)
Record PropertyDescriptor : Type := {
  desc_value : option value;
  enumerable : bool;
  writable : bool;
  configurable : bool
}.

(** ** Property functions *)

(** The body of a property function of the specification, after it has
    received its source.  It runs with the lazy record as [this]: a body
    returns, throws, runs a block and goes on with what the block returned
    or threw ([try] and [catch]), or does an operation on [this] and goes
    on with its result: [this[k]], [this[k] = v], [delete this[k]],
    [k in this], [Reflect.ownKeys(this)] and
    [Object.getOwnPropertyDescriptor(this, k)]. *)
Inductive body : Type :=
| Return (v : value)
| Throw (e : value)
| Try (block : body) (cont : exn + value → body)
| ThisGet (k : Key) (cont : value → body)
| ThisSet (k : Key) (v : value) (cont : body)
| ThisDelete (k : Key) (cont : body)
| ThisHas (k : Key) (cont : bool → body)
| ThisKeys (cont : list Key → body)
| ThisDescribe (k : Key) (cont : option PropertyDescriptor → body).

Module handlers.
Section handlers.
Context {From : Type}.

Definition MappingSpec : Type := list (Key * (From → body)).

Record ProxyTarget : Type := {
  spec : MappingSpec;
  source : From;
  store : list (Key * value);
  deletedKeys : gset Key
}.

(** How an operation on the record ends: with a result and the record as
    it is then, with an exception and the record as it is then, or not
    within the given depth of nested reads.  Of a read that needs a greater
    depth the model says no more than that: an engine ends a recursion that
    is too deep for it with a [RangeError]. *)
Inductive completion (A : Type) : Type :=
| Returned (a : A) (t : ProxyTarget)
| Thrown (e : exn) (t : ProxyTarget)
| OutOfFuel.

(** An outcome is a completion together with the property functions that
    were invoked on the way, in the order of invocation. *)
Definition outcome (A : Type) : Type := list Key * completion A.

Definition ret {A} (a : A) (t : ProxyTarget) : outcome A :=
  ([], Returned A a t).

Definition bind {A B} (m : outcome A)
    (f : A → ProxyTarget → outcome B) : outcome B :=
  match m with
  | (tr, Returned _ a t) => let '(tr', c) := f a t in (tr ++ tr', c)
  | (tr, Thrown _ e t) => (tr, Thrown B e t)
  | (tr, OutOfFuel _) => (tr, OutOfFuel B)
  end.

Definition catch {A B} (m : outcome A)
    (f : exn + A → ProxyTarget → outcome B) : outcome B :=
  match m with
  | (tr, Returned _ a t) => let '(tr', c) := f (inr a) t in (tr ++ tr', c)
  | (tr, Thrown _ e t) => let '(tr', c) := f (inl e) t in (tr ++ tr', c)
  | (tr, OutOfFuel _) => (tr, OutOfFuel B)
  end.

(** [key in target.store || key in target.spec] *)
Definition has (target : ProxyTarget) (key : Key) : bool :=
  bool_decide (obj_in (store target) key)
  || bool_decide (obj_in (spec target) key).

(** [target.deletedKeys.delete(prop); return target.store[prop] = value].
    An assignment of an object or of [null] to [__proto__] gives the store
    another prototype and leaves its own properties as they are: of such
    an assignment [set] gives the tombstones and the own properties of the
    store, and not the prototype, which is no component of the record. *)
Definition set (target : ProxyTarget) (prop : Key) (v : value)
    : value * ProxyTarget :=
  (v, {| spec := spec target;
         source := source target;
         store := obj_write (store target) prop v;
         deletedKeys := deletedKeys target ∖ {[prop]} |}).

(** [delete target.store[prop]; target.deletedKeys.add(prop); return true] *)
Definition deleteProperty (target : ProxyTarget) (prop : Key)
    : bool * ProxyTarget :=
  (true, {| spec := spec target;
            source := source target;
            store := obj_delete (store target) prop;
            deletedKeys := deletedKeys target ∪ {[prop]} |}).

(** [Array.from(new Set(Object.keys(target.spec).concat(
      Object.keys(target.store)))).filter(key => !target.deletedKeys.has(key))] *)
Definition ownKeys (target : ProxyTarget) : list Key :=
  let allKeys := Object_keys (spec target) ++ Object_keys (store target) in
  filter (λ key, key ∉ deletedKeys target) (Array_from_new_Set allKeys).

(** [Reflect.getOwnPropertyDescriptor(o, k)]: the descriptor of an own
    property, [undefined] for any other name.  The properties of the store
    are created by assignment, so all their attributes are true. *)
Definition Reflect_getOwnPropertyDescriptor (o : object value) (k : Key)
    : option PropertyDescriptor :=
  (λ v, {| desc_value := Some v; enumerable := true;
           writable := true; configurable := true |}) <$> obj_get o k.

(** [Reflect.getOwnPropertyDescriptor(target.store, prop)] if
    [prop in target.store], else an enumerable, writable and configurable
    descriptor without a value if [prop in target.spec], else
    [undefined]. *)
Definition getOwnPropertyDescriptor (target : ProxyTarget) (prop : Key)
    : option PropertyDescriptor :=
  if decide (obj_in (store target) prop)
  then Reflect_getOwnPropertyDescriptor (store target) prop
  else if decide (obj_in (spec target) prop)
  then Some {| desc_value := None; enumerable := true;
               writable := true; configurable := true |}
  else None.

(** The assignment [this[prop] = v] of strict code on the proxy: the
    [set] trap runs, and a falsy result of the trap is reported as a
    failed assignment, which strict code turns into a [TypeError]. *)
Definition assign (target : ProxyTarget) (prop : Key) (v : value)
    : outcome value :=
  let '(r, target') := set target prop v in
  if ToBoolean r then ([], Returned value v target')
  else ([], Thrown value TypeError target').

(** [target.store[prop] = v], the memoizing write of [get]. *)
Definition memoize (target : ProxyTarget) (prop : Key) (v : value)
    : ProxyTarget :=
  {| spec := spec target;
     source := source target;
     store := obj_write (store target) prop v;
     deletedKeys := deletedKeys target |}.

(** [f.call(self, ...)]: the body runs with the proxy as [this].  A read
    of [this] is a call of the [get] trap, given here as [self_get]; the
    other operations on [this] are calls of the traps above. *)
Fixpoint call (self_get : ProxyTarget → Key → outcome value)
    (b : body) (target : ProxyTarget) : outcome value :=
  match b with
  | Return v => ret v target
  | Throw e => ([], Thrown value (Exception e) target)
  | Try block cont =>
      catch (call self_get block target)
        (λ r target', call self_get (cont r) target')
  | ThisGet k cont =>
      bind (self_get target k) (λ v target', call self_get (cont v) target')
  | ThisSet k v cont =>
      bind (assign target k v) (λ _ target', call self_get cont target')
  | ThisDelete k cont =>
      call self_get cont (deleteProperty target k).2
  | ThisHas k cont =>
      call self_get (cont (has target k)) target
  | ThisKeys cont =>
      call self_get (cont (ownKeys target)) target
  | ThisDescribe k cont =>
      call self_get (cont (getOwnPropertyDescriptor target k)) target
  end.

(** [target.spec[prop].call(self, target.source)], recording the
    invocation. *)
Definition invoke (self_get : ProxyTarget → Key → outcome value)
    (target : ProxyTarget) (prop : Key) : outcome value :=
  match obj_get (spec target) prop with
  | Some fn =>
      let '(tr, c) := call self_get (fn (source target)) target in
      (prop :: tr, c)
  | None => ([], Thrown value TypeError target)
  end.

(** The [get] trap:
    [if (target.deletedKeys.has(prop)) return undefined;
     if (!(prop in target.store) && (prop in target.spec))
       target.store[prop] = target.spec[prop].call(self, target.source);
     return target.store[prop]].
    [fuel] bounds the depth of the reads that property functions make of
    the record while a read is in progress. *)
Fixpoint get (fuel : nat) (target : ProxyTarget) (prop : Key)
    : outcome value :=
  match fuel with
  | O => ([], OutOfFuel value)
  | S fuel' =>
      if decide (prop ∈ deletedKeys target) then ret VUndefined target
      else
        bind
          (if decide (¬ obj_in (store target) prop ∧ obj_in (spec target) prop)
           then bind (invoke (get fuel') target prop)
                     (λ v target', ret v (memoize target' prop v))
           else ret VUndefined target)
          (λ _ target', ret (obj_read (store target') prop) target')
  end.

Definition proxyFactory (spec0 : MappingSpec) (source0 : From) : ProxyTarget :=
  {| spec := spec0; source := source0; store := []; deletedKeys := ∅ |}.

Definition mapping (spec0 : MappingSpec) : From → ProxyTarget :=
  λ source0, proxyFactory spec0 source0.

End handlers.
End handlers.

Import handlers.

(** ** Observations on outcomes and records *)

Section observations.
Context {From : Type}.
Implicit Types (t target : @ProxyTarget From) (f g k prop : Key).

(** The record an operation leaves, when it returns or throws. *)
Definition after {A} (c : @completion From A) : option ProxyTarget :=
  match c with
  | Returned _ _ t => Some t
  | Thrown _ _ t => Some t
  | OutOfFuel _ => None
  end.

(** How often the property function of [f] was invoked. *)
Definition invocations f (tr : list Key) : nat :=
  length (filter (λ k, k = f) tr).

(** The states of a field name: materialized, tombstoned, and unset, which
    is the state in which a read computes the field: not tombstoned, no
    property of the store, own or inherited, and a key of the
    specification. *)
Definition materialized t f : Prop := f ∈ (store t).*1.
Definition tombstoned t f : Prop := f ∈ deletedKeys t.
Definition settled t f : Prop := materialized t f ∨ tombstoned t f.
Definition unset t f : Prop :=
  (f ∉ deletedKeys t) ∧ (f ∉ (store t).*1) ∧ (f ∉ Object_prototype.*1) ∧
  (f ∈ (spec t).*1).

(** The property function of [f] cannot be invoked: [f] is tombstoned, or
    [f in target.store] holds. *)
Definition dormant t f : Prop := tombstoned t f ∨ obj_in (store t) f.

(** No field name is stored and tombstoned at once. *)
Definition disjoint t : Prop :=
  ∀ k, ¬ (k ∈ (store t).*1 ∧ k ∈ deletedKeys t).

(** The descriptor [getOwnPropertyDescriptor] makes up for a
    specification key that has no stored value. *)
Definition synthetic : PropertyDescriptor :=
  {| desc_value := None; enumerable := true;
     writable := true; configurable := true |}.

(** An operation started on [t] keeps the specification and the source,
    leaves a record that [R] relates to [t], and invokes only property
    functions of fields that satisfy [T t]. *)
Definition ensures (R : ProxyTarget → ProxyTarget → Prop)
    (T : ProxyTarget → Key → Prop) t {A} (o : @outcome From A) : Prop :=
  Forall (T t) o.1 ∧
  ∀ t', after o.2 = Some t' →
    spec t' = spec t ∧ source t' = source t ∧ R t t'.

(** [evolves t t']: a caller gets from the record [t] to the record [t'] by
    reading, writing and deleting fields.  A read that throws leaves the
    record as it was when the exception was raised. *)
Inductive evolves : ProxyTarget → ProxyTarget → Prop :=
| evolves_refl t :
    evolves t t
| evolves_get t t1 fuel prop t2 :
    evolves t t1 →
    after (get fuel t1 prop).2 = Some t2 →
    evolves t t2
| evolves_set t t1 prop v :
    evolves t t1 →
    evolves t (set t1 prop v).2
| evolves_delete t t1 prop :
    evolves t t1 →
    evolves t (deleteProperty t1 prop).2.



(** The records a caller can obtain from [mapping spec0 source0]. *)
Definition reachable (spec0 : MappingSpec) (source0 : From) t : Prop :=
  evolves (mapping spec0 source0) t.

End observations.

(** What a property function does to its [this]: it reads only fields in
    [G], writes only fields in [W] and deletes only fields in [D]. *)
Inductive within (G W D : Key → Prop) : body → Prop :=
| within_Return v :
    within G W D (Return v)
| within_Throw e :
    within G W D (Throw e)
| within_Try block cont :
    within G W D block → (∀ r, within G W D (cont r)) →
    within G W D (Try block cont)
| within_ThisGet k cont :
    G k → (∀ v, within G W D (cont v)) → within G W D (ThisGet k cont)
| within_ThisSet k v cont :
    W k → within G W D cont → within G W D (ThisSet k v cont)
| within_ThisDelete k cont :
    D k → within G W D cont → within G W D (ThisDelete k cont)
| within_ThisHas k cont :
    (∀ b, within G W D (cont b)) → within G W D (ThisHas k cont)
| within_ThisKeys cont :
    (∀ ks, within G W D (cont ks)) → within G W D (ThisKeys cont)
| within_ThisDescribe k cont :
    (∀ d, within G W D (cont d)) → within G W D (ThisDescribe k cont).

Definition any_key : Key → Prop := λ _, True.

(** The property functions of the fields in [G] read only fields in [G]. *)
Definition reads_closed {From} (G : Key → Prop)
    (spec0 : @MappingSpec From) (source0 : From) : Prop :=
  ∀ k fn, G k → obj_get spec0 k = Some fn →
    within G any_key any_key (fn source0).

(** No property function deletes a field of the specification. *)
Definition never_deletes {From}
    (spec0 : @MappingSpec From) (source0 : From) : Prop :=
  ∀ k fn, obj_get spec0 k = Some fn →
    within any_key any_key (λ k', k' ∉ spec0.*1) (fn source0).

(** No property function assigns to [__proto__] of the record: the store
    keeps its prototype while the property functions run. *)
Definition keeps_prototype {From}
    (spec0 : @MappingSpec From) (source0 : From) : Prop :=
  ∀ k fn, obj_get spec0 k = Some fn →
    within any_key (λ k', k' ≠ "__proto__") any_key (fn source0).

(** ** The records of the test suite and of the examples *)

Record Source : Type := {
  first : string;
  last : string;
  mobile : string;
  home : string
}.

Definition sourceObject : Source :=
  {| first := "Lando"; last := "Calrissian";
     mobile := "555-123-1234"; home := "555-555-5555" |}.

(** [a + b] when one of the two is a string. *)
Definition plus (a b : value) : value :=
  VString (String.append (ToString a) (ToString b)).

(** The specification of [mapping.test.ts]. *)
Definition person_spec : @MappingSpec Source :=
  [ ("name", λ details,
       Return (VString (String.append (first details)
                          (String.append " " (last details)))));
    ("phone", λ details,
       Return (VString (if ToBoolean (VString (mobile details))
                        then mobile details else home details)));
    ("contactInfo", λ _,
       ThisGet "name" (λ name,
       ThisGet "phone" (λ phone,
       Return (plus (plus name (VString (String "010" ""))) phone)))) ].

Definition person : @ProxyTarget Source := mapping person_spec sourceObject.

(** The record after [person.contactInfo] has been read. *)
Definition person_read : @ProxyTarget Source :=
  default person (after (get 2 person "contactInfo").2).


(** [{ name: d => d.first, phone() { throw 'no phone' },
       contactInfo() { return this.name + this.phone; } }] *)
Definition failing_spec : @MappingSpec Source :=
  [ ("name", λ details, Return (VString (first details)));
    ("phone", λ _, Throw (VString "no phone"));
    ("contactInfo", λ _,
       ThisGet "name" (λ name,
       ThisGet "phone" (λ phone, Return (plus name phone)))) ].

(** [{ f() { delete this.f; return 1; } }] *)
Definition self_deleting_spec : @MappingSpec Source :=
  [ ("f", λ _, ThisDelete "f" (Return (VNumber 1))) ].

(** [{ constructor: () => 1, plain: () => 2 }]: a specification with a key
    that every object inherits. *)
Definition shadowing_spec : @MappingSpec Source :=
  [ ("constructor", λ _, Return (VNumber 1));
    ("plain", λ _, Return (VNumber 2)) ].

Definition shadowing : @ProxyTarget Source :=
  mapping shadowing_spec sourceObject.

(** ** Callers of the record *)

Section callers.
Context {From : Type}.
Implicit Types (t : @ProxyTarget From) (k : Key).

(** [Object.keys(record)], as the proxy answers it: the [ownKeys] trap
    gives the names, and the [getOwnPropertyDescriptor] trap tells of each
    name whether it is an enumerable property. *)
Definition Object_keys_record t : list Key :=
  filter (λ k, enumerable <$> getOwnPropertyDescriptor t k = Some true)
    (ownKeys t).

(** [record[k]] for each [k] of [ks] in turn, as [JSON.stringify] reads the
    properties of an object.  The result is what was read. *)
Fixpoint read_all (fuel : nat) (ks : list Key) t
    : outcome (list (Key * value)) :=
  match ks with
  | [] => ret [] t
  | k :: ks' =>
      bind (get fuel t k) (λ v t1,
      bind (read_all fuel ks' t1) (λ es t2, ret ((k, v) :: es) t2))
  end.

(** The walk of [JSON.stringify(record)] over the record: it reads
    [record.toJSON], which the record does not inherit, then lists the
    enumerable own keys as [Object.keys] does, then reads each of them.
    The result is the list of the properties it has read; it writes those
    whose value is neither [undefined] nor a function. *)
Definition stringify (fuel : nat) t : outcome (list (Key * value)) :=
  bind (get fuel t "toJSON")
    (λ _ t1, read_all fuel (Object_keys_record t1) t1).

(** What a read of [k] answers from the store and the tombstones alone. *)
Definition answer t k : value :=
  if decide (k ∈ deletedKeys t) then VUndefined
  else obj_read (store t) k.

(** [t'] differs from [t] by memoized fields only: the tombstones are the
    same, every stored value is still stored, and the new keys of the store
    are keys of the specification that the store does not inherit. *)
Definition memoized_only t t' : Prop :=
  deletedKeys t' = deletedKeys t ∧
  (∀ k v, obj_get (store t) k = Some v → obj_get (store t') k = Some v) ∧
  (∀ k, k ∈ (store t').*1 →
     k ∈ (store t).*1 ∨ (k ∈ (spec t).*1 ∧ k ∉ Object_prototype.*1)).

(** The properties of the names [ks], read off the store and the
    tombstones. *)
Definition entries t (ks : list Key) : list (Key * value) :=
  (λ k, (k, answer t k)) <$> ks.

(** What holds of an operation that has not changed the specification or
    the source and has thrown, if anything, an error of a property
    function. *)
Definition own_errors (spec0 : MappingSpec) (source0 : From) {A}
    (o : @outcome From A) : Prop :=
  (∀ t', after o.2 = Some t' → spec t' = spec0 ∧ source t' = source0) ∧
  (∀ e t', o.2 = Thrown A e t' → e ≠ TypeError).

End callers.

Definition no_key : Key → Prop := λ _, False.

(** The property functions only read the record: none writes or deletes a
    field through [this]. *)
Definition reads_only {From}
    (spec0 : @MappingSpec From) (source0 : From) : Prop :=
  ∀ k fn, obj_get spec0 k = Some fn →
    within any_key no_key no_key (fn source0).

(** No property function assigns to a field of the record. *)
Definition never_assigns {From}
    (spec0 : @MappingSpec From) (source0 : From) : Prop :=
  ∀ k fn, obj_get spec0 k = Some fn →
    within any_key no_key any_key (fn source0).

(** The reads of the property functions descend along [rank]: the
    property function of [k] reads only fields of a rank below that of
    [k]. *)
Definition reads_descend {From} (rank : Key → nat)
    (spec0 : @MappingSpec From) (source0 : From) : Prop :=
  ∀ k fn, obj_get spec0 k = Some fn →
    within (λ k', (rank k' < rank k)%nat) any_key any_key (fn source0).

(** An operation completes: it returns or throws, and keeps the
    specification and the source. *)
Definition completes {From} (spec0 : @MappingSpec From) (source0 : From)
    {A} (o : @outcome From A) : Prop :=
  ∃ t', after o.2 = Some t' ∧ spec t' = spec0 ∧ source t' = source0.

(** [{ f() { return this.f; } }] *)
Definition cyclic_spec : @MappingSpec Source :=
  [ ("f", λ _, ThisGet "f" (λ v, Return v)) ].

(** The rank of the fields of [person_spec]: [contactInfo] reads [name]
    and [phone], which read nothing. *)
Definition person_rank (k : Key) : nat :=
  if decide (k = "contactInfo") then 1 else 0.

(** The record of the test "serializes as expected", before
    [JSON.stringify]: [person.foo = 'bar']. *)
Definition person_foo : @ProxyTarget Source :=
  (set person "foo" (VString "bar")).2.

(** * Properties *)

(** ** Objects *)

Section objects.
Context {A : Type}.
Implicit Types (o : object A) (k : Key) (a : A).

Lemma obj_get_None o k : obj_get o k = None ↔ k ∉ o.*1.
Proof.
  induction o as [|[k' a'] o IH]; simpl.
  - split; [intros _; apply not_elem_of_nil | done].
  - rewrite not_elem_of_cons. case_decide; subst; [|tauto].
    split; [done | tauto].
Qed.

Lemma obj_get_is_Some o k : is_Some (obj_get o k) ↔ k ∈ o.*1.
Proof.
  rewrite <- not_eq_None_Some, obj_get_None.
  destruct (decide (k ∈ o.*1)); tauto.
Qed.

Lemma obj_get_set o k a : obj_get (obj_set o k a) k = Some a.
Proof.
  induction o as [|[k' a'] o IH]; simpl; repeat (case_decide; simpl); try done.
Qed.

Lemma obj_get_set_ne o k k' a :
  k ≠ k' → obj_get (obj_set o k a) k' = obj_get o k'.
Proof.
  intros Hne. induction o as [|[k0 a0] o IH]; simpl;
    repeat (case_decide; simpl); subst; try done.
Qed.

Lemma obj_get_delete o k : obj_get (obj_delete o k) k = None.
Proof.
  induction o as [|[k' a'] o IH]; simpl; repeat (case_decide; simpl); done.
Qed.

Lemma elem_of_obj_set o k a k' :
  k' ∈ (obj_set o k a).*1 ↔ k' = k ∨ k' ∈ o.*1.
Proof.
  induction o as [|[k0 a0] o IH]; simpl.
  - rewrite list_elem_of_singleton, elem_of_nil. tauto.
  - case_decide; subst; simpl; rewrite !elem_of_cons; [tauto|].
    rewrite IH. tauto.
Qed.

Lemma elem_of_obj_delete o k k' :
  k' ∈ (obj_delete o k).*1 ↔ k' ≠ k ∧ k' ∈ o.*1.
Proof.
  induction o as [|[k0 a0] o IH]; simpl.
  - rewrite elem_of_nil. tauto.
  - case_decide; subst; simpl; rewrite ?elem_of_cons, IH;
      intuition congruence.
Qed.



Lemma NoDup_obj_set o k a : NoDup o.*1 → NoDup (obj_set o k a).*1.
Proof.
  induction o as [|[k0 a0] o IH]; simpl.
  - intros _. apply NoDup_singleton.
  - rewrite NoDup_cons. intros [Hk0 Ho].
    case_decide; subst; simpl; rewrite NoDup_cons; [done|].
    rewrite elem_of_obj_set. split; [|auto]. intros [->|]; done.
Qed.

Lemma NoDup_obj_delete o k : NoDup o.*1 → NoDup (obj_delete o k).*1.
Proof.
  induction o as [|[k0 a0] o IH]; simpl; [done|].
  rewrite NoDup_cons. intros [Hk0 Ho].
  case_decide; subst; simpl; [auto|].
  rewrite NoDup_cons, elem_of_obj_delete. tauto.
Qed.

End objects.

(** ** Object literals: inherited properties and assignment *)

Section object_literals.
Implicit Types (o : object value) (k : Key) (v : value).

Lemma proto_inherited : "__proto__" ∈ Object_prototype.*1.
Proof. apply (bool_decide_unpack _). vm_compute. exact I. Qed.

Lemma obj_write_set o k v :
  k ≠ "__proto__" ∨ k ∈ o.*1 → obj_write o k v = obj_set o k v.
Proof. intros Hk. unfold obj_write. rewrite decide_False; [done|]. tauto. Qed.

Lemma obj_write_plain o k v :
  k ∉ Object_prototype.*1 → obj_write o k v = obj_set o k v.
Proof.
  intros Hk. apply obj_write_set. left. intros ->.
  apply Hk, proto_inherited.
Qed.

(** The accessor [__proto__] stores nothing. *)
Lemma obj_write_proto o v :
  "__proto__" ∉ o.*1 → obj_write o "__proto__" v = o.
Proof. intros Hk. unfold obj_write. by rewrite decide_True. Qed.

Lemma elem_of_obj_write o k v k' :
  k' ∈ (obj_write o k v).*1 ↔
    (k' = k ∧ (k ≠ "__proto__" ∨ k ∈ o.*1)) ∨ k' ∈ o.*1.
Proof.
  unfold obj_write. case_decide as Hk.
  - split; [tauto|]. intros [[-> ?]|?]; [|done]. tauto.
  - rewrite elem_of_obj_set. split; [|tauto].
    intros [->|?]; [|tauto]. left. split; [done|].
    destruct (decide (k = "__proto__")), (decide (k ∈ o.*1)); tauto.
Qed.

Lemma elem_of_obj_write_old o k v k' :
  k' ∈ o.*1 → k' ∈ (obj_write o k v).*1.
Proof. rewrite elem_of_obj_write. tauto. Qed.



Lemma obj_get_write o k v :
  k ≠ "__proto__" ∨ k ∈ o.*1 → obj_get (obj_write o k v) k = Some v.
Proof. intros Hk. rewrite obj_write_set by done. apply obj_get_set. Qed.

Lemma obj_get_write_ne o k k' v :
  k ≠ k' → obj_get (obj_write o k v) k' = obj_get o k'.
Proof.
  intros Hne. unfold obj_write. case_decide; [done|].
  by apply obj_get_set_ne.
Qed.

Lemma NoDup_obj_write o k v : NoDup o.*1 → NoDup (obj_write o k v).*1.
Proof. unfold obj_write. case_decide; [done|]. apply NoDup_obj_set. Qed.

Lemma obj_read_own o k v : obj_get o k = Some v → obj_read o k = v.
Proof. unfold obj_read. by intros ->. Qed.

Lemma obj_read_inherited o k :
  k ∉ o.*1 → obj_read o k = default VUndefined (obj_get Object_prototype k).
Proof. intros Hk%obj_get_None. unfold obj_read. by rewrite Hk. Qed.

Lemma obj_read_absent o k :
  k ∉ o.*1 → k ∉ Object_prototype.*1 → obj_read o k = VUndefined.
Proof.
  intros Hk Hp. rewrite obj_read_inherited by done.
  apply obj_get_None in Hp. by rewrite Hp.
Qed.

Lemma obj_read_write o k v :
  k ≠ "__proto__" ∨ k ∈ o.*1 → obj_read (obj_write o k v) k = v.
Proof. intros Hk. apply obj_read_own. by apply obj_get_write. Qed.

Lemma obj_read_write_ne o k k' v :
  k ≠ k' → obj_read (obj_write o k v) k' = obj_read o k'.
Proof. intros Hne. unfold obj_read. by rewrite obj_get_write_ne. Qed.

End object_literals.

(** ** A proof rule for reads

    [get] and the property functions it runs call each other, so a property
    of [get] is proved once, by induction on the depth of the nested reads
    and on the body of the property function, for every relation [R] between
    the record before and after and every condition [T] on the invoked
    functions that the traps respect. *)

Section get_rule.
Context {From : Type} (spec0 : @MappingSpec From) (source0 : From).
Context (G W D : Key → Prop).
Context (R : @ProxyTarget From → @ProxyTarget From → Prop).
Context (T : @ProxyTarget From → Key → Prop).
Implicit Types (t : @ProxyTarget From) (k : Key).

Hypothesis R_refl : ∀ t, R t t.
Hypothesis R_trans : ∀ t1 t2 t3, R t1 t2 → R t2 t3 → R t1 t3.
Hypothesis R_set : ∀ t k v, W k → R t (set t k v).2.
Hypothesis R_delete : ∀ t k, D k → R t (deleteProperty t k).2.
Hypothesis R_memoize :
  ∀ t t' k v, spec t = spec0 → unset t k → R t t' → R t (memoize t' k v).
Hypothesis T_invoke : ∀ t k, spec t = spec0 → G k → unset t k → T t k.
Hypothesis T_mono : ∀ t t' k, R t t' → T t' k → T t k.
Hypothesis spec_ok :
  ∀ k fn, G k → obj_get spec0 k = Some fn → within G W D (fn source0).

Lemma ensures_ret {A} (a : A) t : ensures R T t (ret a t).
Proof. split; [constructor|]. intros t' [= <-]. auto. Qed.

Lemma ensures_weaken {A} t t1 (o : outcome A) :
  spec t1 = spec t → source t1 = source t → R t t1 →
  ensures R T t1 o → ensures R T t o.
Proof.
  intros Hs Hf HR [Htr Ht']. split.
  - eapply Forall_impl; [exact Htr|]. intros k. by apply T_mono.
  - intros t' Hafter. destruct (Ht' _ Hafter) as (? & ? & ?).
    repeat split; [congruence..|by eapply R_trans].
Qed.

Lemma ensures_bind {A B} t (m : outcome A) (f : A → ProxyTarget → outcome B) :
  ensures R T t m →
  (∀ a t1, after m.2 = Some t1 →
     spec t1 = spec t → source t1 = source t → R t t1 →
     ensures R T t (f a t1)) →
  ensures R T t (bind m f).
Proof.
  intros [Htr Ht'] Hf. destruct m as [tr [a t1|e t1|]]; simpl in *.
  - destruct (Ht' t1 eq_refl) as (Hs & Hsrc & HR).
    specialize (Hf a t1 eq_refl Hs Hsrc HR).
    destruct (f a t1) as [tr' c]. destruct Hf as [Htr' Hc].
    split; [by apply Forall_app|done].
  - split; [done|]. intros t' [= <-]. by apply Ht'.
  - split; [done|]. intros t' [=].
Qed.

Lemma ensures_catch {A B} t (m : outcome A)
    (f : exn + A → ProxyTarget → outcome B) :
  ensures R T t m →
  (∀ r t1, after m.2 = Some t1 →
     spec t1 = spec t → source t1 = source t → R t t1 →
     ensures R T t (f r t1)) →
  ensures R T t (catch m f).
Proof.
  intros [Htr Ht'] Hf. destruct m as [tr [a t1|e t1|]]; simpl in *.
  - destruct (Ht' t1 eq_refl) as (Hs & Hsrc & HR).
    specialize (Hf (inr a) t1 eq_refl Hs Hsrc HR).
    destruct (f (inr a) t1) as [tr' c]. destruct Hf as [Htr' Hc].
    split; [by apply Forall_app|done].
  - destruct (Ht' t1 eq_refl) as (Hs & Hsrc & HR).
    specialize (Hf (inl e) t1 eq_refl Hs Hsrc HR).
    destruct (f (inl e) t1) as [tr' c]. destruct Hf as [Htr' Hc].
    split; [by apply Forall_app|done].
  - split; [done|]. intros t' [=].
Qed.

Lemma call_ensures (self_get : ProxyTarget → Key → outcome value) :
  (∀ t k, G k → spec t = spec0 ∧ source t = source0 →
     ensures R T t (self_get t k)) →
  ∀ b, within G W D b →
  ∀ t, spec t = spec0 ∧ source t = source0 →
    ensures R T t (call self_get b t).
Proof.
  intros Hself b Hb.
  induction Hb as [v|e|block cont _ IHblock _ IH
                   |k cont Hk _ IH|k v cont Hk _ IH|k cont Hk _ IH
                   |k cont _ IH|cont _ IH|k cont _ IH];
    intros t [Hs Hsrc]; simpl.
  - apply ensures_ret.
  - split; [constructor|]. intros t' [= <-]. auto.
  - apply ensures_catch; [by apply IHblock|].
    intros r t1 _ Hs1 Hsrc1 HR.
    apply (ensures_weaken t t1); [done..|].
    apply IH. split; congruence.
  - apply ensures_bind; [by apply Hself|].
    intros v t1 _ Hs1 Hsrc1 HR.
    apply (ensures_weaken t t1); [done..|].
    apply IH. split; congruence.
  - apply ensures_bind.
    + unfold assign. simpl. destruct (ToBoolean v);
        (split; [constructor|]); intros t' [= <-]; simpl;
        repeat split; by apply (R_set t k v).
    + intros _ t1 _ Hs1 Hsrc1 HR.
      apply (ensures_weaken t t1); [done..|].
      apply IH. split; congruence.
  - eapply ensures_weaken; [..|apply IH]; simpl; try done.
    by apply (R_delete t k).
  - by apply IH.
  - by apply IH.
  - by apply IH.
Qed.

Lemma invoke_ensures (self_get : ProxyTarget → Key → outcome value) t k :
  (∀ t k, G k → spec t = spec0 ∧ source t = source0 →
     ensures R T t (self_get t k)) →
  G k → spec t = spec0 ∧ source t = source0 → unset t k →
  ensures R T t (invoke self_get t k).
Proof.
  intros Hself Hk [Hs Hsrc] Hu. unfold invoke.
  destruct (obj_get (spec t) k) as [fn|] eqn:Hfn.
  - rewrite Hs in Hfn. rewrite Hsrc.
    pose proof (call_ensures self_get Hself (fn source0)
                  (spec_ok k fn Hk Hfn) t (conj Hs Hsrc)) as Hcall.
    destruct (call self_get (fn source0) t) as [tr c].
    destruct Hcall as [Htr Hc].
    split; [|done]. constructor; [by apply T_invoke|done].
  - split; [constructor|]. intros t' [= <-]. auto.
Qed.

Lemma get_ensures fuel :
  ∀ t k, G k → spec t = spec0 ∧ source t = source0 →
    ensures R T t (get fuel t k).
Proof.
  induction fuel as [|fuel IH]; intros t k Hk [Hs Hsrc]; simpl.
  { split; [constructor|]. intros t' [=]. }
  case_decide as Hdel; [apply ensures_ret|].
  apply ensures_bind.
  - case_decide as Hunset; [|apply ensures_ret].
    assert (unset t k) as Hu by (unfold unset, obj_in in *; tauto).
    apply ensures_bind; [by apply invoke_ensures|].
    intros v t1 _ Hs1 Hsrc1 HR.
    split; [constructor|]. intros t' [= <-]. simpl.
    repeat split; [done..|]. by apply R_memoize.
  - intros _ t1 _ Hs1 Hsrc1 HR.
    split; [constructor|]. by intros t' [= <-].
Qed.

End get_rule.
(** ** The cases of [get] *)

Section get_cases.
Context {From : Type}.
Implicit Types (t : @ProxyTarget From) (f k : Key) (v : value).

Lemma get_S fuel t k :
  get (S fuel) t k =
    if decide (k ∈ deletedKeys t) then ret VUndefined t
    else
      bind
        (if decide (¬ obj_in (store t) k ∧ obj_in (spec t) k)
         then bind (invoke (get fuel) t k)
                   (λ v t', ret v (memoize t' k v))
         else ret VUndefined t)
        (λ _ t', ret (obj_read (store t') k) t').
Proof. reflexivity. Qed.

(** The test of [get] for computing a field. *)
Lemma unset_iff t k :
  unset t k ↔
    (k ∉ deletedKeys t) ∧ ¬ obj_in (store t) k ∧ obj_in (spec t) k.
Proof. unfold unset, obj_in. tauto. Qed.

(** A name that is a property of the store, own or inherited, is read
    off the store. *)
Lemma get_in_store fuel t f :
  f ∉ deletedKeys t → obj_in (store t) f →
  get (S fuel) t f = ([], Returned value (obj_read (store t) f) t).
Proof.
  intros Hd Hin. rewrite get_S, decide_False by done.
  rewrite decide_False by tauto. done.
Qed.

Lemma get_tombstoned fuel t f :
  f ∈ deletedKeys t → get (S fuel) t f = ([], Returned value VUndefined t).
Proof. intros Hd. simpl. by rewrite decide_True. Qed.

Lemma get_materialized fuel t f v :
  f ∉ deletedKeys t → obj_get (store t) f = Some v →
  get (S fuel) t f = ([], Returned value v t).
Proof.
  intros Hd Hv. rewrite get_in_store; [by rewrite (obj_read_own _ _ v)|done|].
  left. apply obj_get_is_Some. by rewrite Hv.
Qed.

(** A name the store inherits and does not have itself reads as the
    inherited property, whether or not it is a key of the
    specification. *)
Lemma get_inherited fuel t f :
  f ∉ deletedKeys t → f ∉ (store t).*1 → f ∈ Object_prototype.*1 →
  get (S fuel) t f =
    ([], Returned value (default VUndefined (obj_get Object_prototype f)) t).
Proof.
  intros Hd Hs Hp. rewrite get_in_store; [|done|by right].
  by rewrite obj_read_inherited.
Qed.

Lemma get_absent fuel t f :
  f ∉ deletedKeys t → f ∉ (store t).*1 → f ∉ Object_prototype.*1 →
  f ∉ (spec t).*1 →
  get (S fuel) t f = ([], Returned value VUndefined t).
Proof.
  intros Hd Hs Hp Hsp. rewrite get_S, decide_False by done.
  rewrite decide_False by (unfold obj_in; tauto). simpl.
  by rewrite obj_read_absent.
Qed.

(** The first read of a field invokes its property function; what the
    function returns is stored, and what it throws is thrown on. *)
Lemma get_unset fuel t f :
  unset t f →
  ∃ fn tr c,
    obj_get (spec t) f = Some fn ∧
    call (get fuel) (fn (source t)) t = (tr, c) ∧
    invoke (get fuel) t f = (f :: tr, c) ∧
    get (S fuel) t f =
      (f :: tr,
       match c with
       | Returned _ v t' => Returned value v (memoize t' f v)
       | Thrown _ e t' => Thrown value e t'
       | OutOfFuel _ => OutOfFuel value
       end).
Proof.
  intros Hu. pose proof Hu as (Hd & Hs & Hp & Hsp).
  apply obj_get_is_Some in Hsp as [fn Hfn].
  destruct (call (get fuel) (fn (source t)) t) as [tr c] eqn:Hcall.
  exists fn, tr, c. do 2 (split; [done|]). split.
  - unfold invoke. by rewrite Hfn, Hcall.
  - apply unset_iff in Hu as (_ & Hstore & Hspec).
    rewrite get_S, decide_False by done.
    rewrite decide_True by done.
    unfold invoke. rewrite Hfn, Hcall.
    destruct c as [v t'|e t'|]; simpl; [|done..].
    rewrite obj_write_plain, (obj_read_own _ _ v) by (done || apply obj_get_set).
    by rewrite !app_nil_r.
Qed.


(** On a new record no field is stored or tombstoned. *)
Lemma unset_mapping (spec0 : MappingSpec) (source0 : From) f :
  f ∈ spec0.*1 → f ∉ Object_prototype.*1 → unset (mapping spec0 source0) f.
Proof.
  intros Hf Hp. repeat split; simpl;
    [apply not_elem_of_empty|apply not_elem_of_nil|done..].
Qed.

End get_cases.

(** ** What reads preserve *)

Section reads.
Context {From : Type}.
Implicit Types (t : @ProxyTarget From) (f g k : Key).

Lemma within_any b : within any_key any_key any_key b.
Proof. induction b; constructor; done. Qed.


Lemma settled_dormant t f : settled t f → dormant t f.
Proof. unfold settled, dormant, materialized, obj_in. tauto. Qed.

Lemma dormant_not_unset t f : dormant t f → ¬ unset t f.
Proof. unfold dormant, unset, tombstoned, obj_in. tauto. Qed.






Lemma disjoint_set t k v : disjoint t → disjoint (set t k v).2.
Proof.
  intros Hd k1 [Hin Hdel]. simpl in *.
  apply elem_of_obj_write in Hin. apply elem_of_difference in Hdel.
  destruct Hdel as [Hdel Hne]. rewrite elem_of_singleton in Hne.
  destruct Hin as [[-> _]|Hin]; [done|]. by apply (Hd k1).
Qed.

Lemma disjoint_deleteProperty t k : disjoint t → disjoint (deleteProperty t k).2.
Proof.
  intros Hd k1 [Hin Hdel]. simpl in *.
  apply elem_of_obj_delete in Hin as [Hne Hin].
  apply elem_of_union in Hdel as [Hdel|Hdel].
  - by apply (Hd k1).
  - by apply elem_of_singleton in Hdel.
Qed.

(** A read invokes only property functions of fields in a set that
    contains the field read and is closed under the reads of its
    members. *)
Lemma get_invokes_within (G : Key → Prop) fuel t g :
  reads_closed G (spec t) (source t) → G g →
  Forall G (get fuel t g).1.
Proof.
  intros Hclosed Hg.
  apply (get_ensures (spec t) (source t) G any_key any_key
           (λ _ _, True) (λ _, G)); done.
Qed.



(** Reads keep the specification, the source, and the keys of the store
    distinct. *)
Lemma get_NoDup fuel t k t' :
  after (get fuel t k).2 = Some t' →
  spec t' = spec t ∧ source t' = source t ∧
  (NoDup (store t).*1 → NoDup (store t').*1).
Proof.
  intros Hafter.
  assert (ensures (λ t t', NoDup (store t).*1 → NoDup (store t').*1)
            (λ _ _, True) t (get fuel t k)) as [_ Ht'].
  { apply (get_ensures (spec t) (source t) any_key any_key any_key).
    - auto.
    - auto.
    - intros t0 k0 v _. apply NoDup_obj_write.
    - intros t0 k0 _. apply NoDup_obj_delete.
    - intros t0 t1 k0 v _ _ HR Hs. apply NoDup_obj_write. auto.
    - done.
    - done.
    - intros k0 fn _ _. apply within_any.
    - done.
    - done. }
  by apply Ht'.
Qed.

(** When no property function deletes a field of the specification, a
    read tombstones no field of the specification and keeps the store and
    the tombstones apart. *)
Lemma get_disjoint fuel t k t' :
  never_deletes (spec t) (source t) →
  disjoint t →
  after (get fuel t k).2 = Some t' →
  disjoint t'.
Proof.
  intros Hspec Hdis Hafter.
  assert (ensures
            (λ t0 t1, (∀ k0, k0 ∈ (spec t).*1 →
                         k0 ∈ deletedKeys t1 → k0 ∈ deletedKeys t0) ∧
                      (disjoint t0 → disjoint t1))
            (λ _ _, True) t (get fuel t k)) as [_ Ht'].
  { apply (get_ensures (spec t) (source t) any_key any_key
             (λ k0, k0 ∉ (spec t).*1)).
    - done.
    - intros t1 t2 t3 [Hs12 H12] [Hs23 H23]. split; auto.
    - intros t0 k0 v _. split; [|apply disjoint_set].
      simpl. intros k1 _. rewrite elem_of_difference. tauto.
    - intros t0 k0 Hk0. split; [|apply disjoint_deleteProperty].
      simpl. intros k1 Hk1. rewrite elem_of_union, elem_of_singleton.
      intros [?| ->]; done.
    - intros t0 t1 k0 v Hs0 (Hdel & _ & _ & Hin0) [Hsub HR]. split; [done|].
      intros Hd k1 [Hin Hdel1]. simpl in *.
      apply elem_of_obj_write in Hin. destruct Hin as [[-> _]|Hin].
      + apply Hdel, Hsub; [|done]. by rewrite <- Hs0.
      + by apply (HR Hd k1).
    - done.
    - done.
    - intros k0 fn _. apply Hspec.
    - done.
    - done. }
  destruct (Ht' _ Hafter) as (_ & _ & _ & Hd). auto.
Qed.

End reads.

(** ** The depth bound

    The bound on the depth of nested reads only cuts reads short: a read
    that returns or throws within some depth does the same within every
    greater depth. *)

Section fuel.
Context {From : Type}.
Implicit Types (t : @ProxyTarget From) (k : Key).

Lemma call_more (g1 g2 : ProxyTarget → Key → outcome value) :
  (∀ t k tr c, g1 t k = (tr, c) → is_Some (after c) → g2 t k = (tr, c)) →
  ∀ b t tr c,
    call g1 b t = (tr, c) → is_Some (after c) → call g2 b t = (tr, c).
Proof.
  intros Hg b.
  induction b as [v|e|block IHblock cont IH
                  |k cont IH|k v cont IH|k cont IH|k cont IH|cont IH|k cont IH];
    intros t tr c; simpl; try done; try apply IH.
  - destruct (call g1 block t) as [tr1 [v t1|e t1|]] eqn:Hb; simpl.
    + rewrite (IHblock _ _ _ Hb) by (simpl; eauto). simpl.
      destruct (call g1 (cont (inr v)) t1) as [tr2 c2] eqn:Hc.
      intros [= <- <-] Hfin. by rewrite (IH _ _ _ _ Hc Hfin).
    + rewrite (IHblock _ _ _ Hb) by (simpl; eauto). simpl.
      destruct (call g1 (cont (inl e)) t1) as [tr2 c2] eqn:Hc.
      intros [= <- <-] Hfin. by rewrite (IH _ _ _ _ Hc Hfin).
    + intros [= <- <-] [? [=]].
  - destruct (g1 t k) as [tr1 [v t1|e t1|]] eqn:Hg1; simpl.
    + rewrite (Hg _ _ _ _ Hg1) by (simpl; eauto). simpl.
      destruct (call g1 (cont v) t1) as [tr2 c2] eqn:Hc.
      intros [= <- <-] Hfin. by rewrite (IH _ _ _ _ Hc Hfin).
    + intros [= <- <-] _. by rewrite (Hg _ _ _ _ Hg1) by (simpl; eauto).
    + intros [= <- <-] [? [=]].
  - destruct (assign t k v) as [tr1 [v1 t1|e t1|]]; simpl; try done.
    destruct (call g1 cont t1) as [tr2 c2] eqn:Hc.
    intros [= <- <-] Hfin. by rewrite (IH _ _ _ Hc Hfin).
Qed.

Lemma get_more fuel :
  ∀ t k tr c,
    get fuel t k = (tr, c) → is_Some (after c) → get (S fuel) t k = (tr, c).
Proof.
  induction fuel as [|fuel IH]; intros t k tr c.
  { simpl. intros [= <- <-] [? [=]]. }
  intros Hget Hfin. rewrite get_S in Hget |- *.
  case_decide; [done|]. case_decide; [|done].
  unfold invoke in *. destruct (obj_get (spec t) k) as [fn|]; [|done].
  destruct (call (get fuel) (fn (source t)) t) as [tr1 c1] eqn:Hcall.
  assert (is_Some (after c1)) as Hfin1.
  { destruct c1; simpl in *; eauto. by simplify_eq. }
  by rewrite (call_more _ _ IH _ _ _ _ Hcall Hfin1).
Qed.

Lemma get_more_le (fuel fuel' : nat) t k tr c :
  (fuel ≤ fuel')%nat →
  get fuel t k = (tr, c) → is_Some (after c) → get fuel' t k = (tr, c).
Proof.
  induction 1 as [|fuel' _ IH]; [done|].
  intros Hget Hfin. apply get_more; auto.
Qed.

End fuel.

(** ** Later records *)

Section evolves.
Context {From : Type}.
Implicit Types (t : @ProxyTarget From) (f k : Key).

Lemma evolves_fixed t t' :
  evolves t t' →
  spec t' = spec t ∧ source t' = source t ∧
  (NoDup (store t).*1 → NoDup (store t').*1).
Proof.
  induction 1 as [t|t t1 fuel prop t2 _ (IHs & IHsrc & IHnd) Hafter
                  |t t1 prop v _ (IHs & IHsrc & IHnd)
                  |t t1 prop _ (IHs & IHsrc & IHnd)]; simpl.
  - done.
  - destruct (get_NoDup fuel t1 prop t2 Hafter) as (? & ? & ?).
    repeat split; [congruence..|auto].
  - repeat split; [done..|]. intros. by apply NoDup_obj_write, IHnd.
  - repeat split; [done..|]. intros. by apply NoDup_obj_delete, IHnd.
Qed.



Lemma evolves_disjoint t t' :
  never_deletes (spec t) (source t) →
  disjoint t → evolves t t' → disjoint t'.
Proof.
  intros Hspec Hdis Hev.
  induction Hev as [t|t t1 fuel prop t2 Hev IH Hafter
                    |t t1 prop v _ IH|t t1 prop _ IH].
  - done.
  - apply evolves_fixed in Hev as (Hs & Hsrc & _).
    eapply get_disjoint; [|by apply IH|exact Hafter]. by rewrite Hs, Hsrc.
  - by apply disjoint_set, IH.
  - by apply disjoint_deleteProperty, IH.
Qed.


Lemma reachable_fixed (spec0 : MappingSpec) (source0 : From) t :
  reachable spec0 source0 t →
  spec t = spec0 ∧ source t = source0 ∧ NoDup (store t).*1.
Proof.
  intros Hreach. apply evolves_fixed in Hreach as (? & ? & Hnd).
  repeat split; [done..|]. apply Hnd, NoDup_nil_2.
Qed.

End evolves.

(** ** Enumerating keys *)

Section keys.
Context {A : Type}.
Implicit Types (o : object A) (k : Key) (ks : list Key).

Lemma Object_keys_Permutation o : Object_keys o ≡ₚ o.*1.
Proof.
  unfold Object_keys. rewrite merge_sort_Permutation.
  induction (o.*1) as [|k ks IH]; simpl; [done|].
  rewrite filter_cons.
  destruct (array_index k) as [n|] eqn:Hk; simpl.
  - constructor. exact IH.
  - rewrite <- Permutation_middle. constructor. exact IH.
Qed.

Lemma elem_of_Object_keys o k : k ∈ Object_keys o ↔ k ∈ o.*1.
Proof. by rewrite Object_keys_Permutation. Qed.

Lemma NoDup_Object_keys o : NoDup o.*1 → NoDup (Object_keys o).
Proof. by rewrite Object_keys_Permutation. Qed.

Lemma filter_iff_elem (P1 P2 : Key → Prop)
    `{!∀ x, Decision (P1 x), !∀ x, Decision (P2 x)} ks :
  (∀ k, k ∈ ks → P1 k ↔ P2 k) → filter P1 ks = filter P2 ks.
Proof.
  induction ks as [|k ks IH]; intros Hiff; [done|].
  rewrite !filter_cons.
  rewrite IH by (intros k' Hk'; apply Hiff; by right).
  apply decide_ext, Hiff. by left.
Qed.

Lemma elem_of_fold_left_Set_add ks acc k :
  k ∈ fold_left Set_add ks acc ↔ k ∈ acc ∨ k ∈ ks.
Proof.
  revert acc. induction ks as [|k' ks IH]; intros acc; simpl.
  - rewrite elem_of_nil. tauto.
  - rewrite IH, elem_of_cons. unfold Set_add. case_decide.
    + split; [tauto|]. intros [?|[->|?]]; auto.
    + rewrite elem_of_app, list_elem_of_singleton. tauto.
Qed.

Lemma NoDup_fold_left_Set_add ks acc :
  NoDup acc → NoDup (fold_left Set_add ks acc).
Proof.
  revert acc. induction ks as [|k' ks IH]; intros acc Hacc; simpl; [done|].
  apply IH. unfold Set_add. case_decide; [done|].
  apply NoDup_app. repeat split; [done| |apply NoDup_singleton].
  intros k Hk ->%list_elem_of_singleton. done.
Qed.

(** A [Set] holds every key it was given, once. *)
Lemma elem_of_Array_from_new_Set ks k : k ∈ Array_from_new_Set ks ↔ k ∈ ks.
Proof.
  unfold Array_from_new_Set. rewrite elem_of_fold_left_Set_add, elem_of_nil.
  tauto.
Qed.

Lemma NoDup_Array_from_new_Set ks : NoDup (Array_from_new_Set ks).
Proof. apply NoDup_fold_left_Set_add, NoDup_nil_2. Qed.

(** Adding distinct keys to a [Set] appends those it does not hold yet. *)
Lemma fold_left_Set_add ks acc :
  NoDup ks →
  fold_left Set_add ks acc = acc ++ filter (λ k, k ∉ acc) ks.
Proof.
  intros Hnd. revert acc.
  induction Hnd as [|k ks Hk Hnd IH]; intros acc; simpl.
  - by rewrite app_nil_r.
  - rewrite filter_cons, IH. unfold Set_add.
    destruct (decide (k ∈ acc)) as [Hin|Hin].
    + by rewrite decide_False by tauto.
    + rewrite decide_True by done. rewrite <- app_assoc. simpl.
      do 2 f_equal. apply filter_iff_elem. intros k' Hk'.
      rewrite elem_of_app, list_elem_of_singleton.
      assert (k' ≠ k) by (intros ->; done). tauto.
Qed.

Lemma Array_from_new_Set_app ks1 ks2 :
  NoDup ks1 → NoDup ks2 →
  Array_from_new_Set (ks1 ++ ks2) = ks1 ++ filter (λ k, k ∉ ks1) ks2.
Proof.
  intros Hnd1 Hnd2. unfold Array_from_new_Set.
  rewrite fold_left_app, (fold_left_Set_add ks1) by done. simpl.
  replace (filter (λ k, k ∉ []) ks1) with ks1; [by apply fold_left_Set_add|].
  clear. induction ks1 as [|k ks1 IH]; [done|].
  rewrite filter_cons_True by apply not_elem_of_nil. by rewrite <- IH.
Qed.

End keys.

Section ownKeys.
Context {From : Type}.
Implicit Types (t : @ProxyTarget From) (k : Key).

(** The keys of the specification come first, then the keys that are
    in the store only; tombstoned keys are left out. *)
Lemma ownKeys_eq t :
  NoDup (spec t).*1 → NoDup (store t).*1 →
  ownKeys t =
    filter (λ k, k ∉ deletedKeys t) (Object_keys (spec t)) ++
    filter (λ k, k ∉ deletedKeys t)
      (filter (λ k, k ∉ (spec t).*1) (Object_keys (store t))).
Proof.
  intros Hspec Hstore. unfold ownKeys.
  rewrite Array_from_new_Set_app by by apply NoDup_Object_keys.
  rewrite filter_app. do 2 f_equal.
  apply list_filter_iff. intros k. by rewrite elem_of_Object_keys.
Qed.

Lemma elem_of_ownKeys t k :
  k ∈ ownKeys t ↔
    (k ∈ (spec t).*1 ∨ k ∈ (store t).*1) ∧ k ∉ deletedKeys t.
Proof.
  unfold ownKeys.
  rewrite list_elem_of_filter, elem_of_Array_from_new_Set, elem_of_app.
  rewrite !elem_of_Object_keys. tauto.
Qed.

Lemma NoDup_ownKeys t : NoDup (ownKeys t).
Proof. apply NoDup_filter, NoDup_Array_from_new_Set. Qed.


(** The names that have a descriptor are the own properties of the store
    and the keys of the specification that the store does not inherit; the
    descriptor is enumerable. *)
Lemma getOwnPropertyDescriptor_is_Some t k :
  is_Some (getOwnPropertyDescriptor t k) ↔
    k ∈ (store t).*1 ∨ ((k ∉ Object_prototype.*1) ∧ k ∈ (spec t).*1).
Proof.
  unfold getOwnPropertyDescriptor, Reflect_getOwnPropertyDescriptor.
  case_decide as Hin.
  - rewrite fmap_is_Some, obj_get_is_Some. unfold obj_in in Hin. tauto.
  - unfold obj_in in Hin. case_decide as Hspec; unfold obj_in in Hspec.
    + split; [tauto|eauto].
    + split; [by intros [? [=]]|tauto].
Qed.

Lemma getOwnPropertyDescriptor_enumerable t k d :
  getOwnPropertyDescriptor t k = Some d → enumerable d = true.
Proof.
  unfold getOwnPropertyDescriptor, Reflect_getOwnPropertyDescriptor.
  repeat case_decide; [|by intros [= <-]|done].
  destruct (obj_get (store t) k); simpl; [by intros [= <-]|done].
Qed.

End ownKeys.

(** ** Writing and deleting *)

Section write_delete.
Context {From : Type}.
Implicit Types (t : @ProxyTarget From) (f k : Key) (v : value).

(** The [set] trap always returns: it clears the tombstone of the
    field and returns the value, which it has stored unless the field is
    the inherited accessor [__proto__]. *)
Lemma set_writes t f v :
  (set t f v).1 = v ∧
  (f ∉ deletedKeys (set t f v).2) ∧
  (f ≠ "__proto__" ∨ f ∈ (store t).*1 →
   obj_get (store (set t f v).2) f = Some v).
Proof.
  simpl. rewrite elem_of_difference, elem_of_singleton.
  split; [done|]. split; [tauto|]. apply obj_get_write.
Qed.

Lemma deleteProperty_tombstones t f :
  f ∈ deletedKeys (deleteProperty t f).2 ∧
  f ∉ (store (deleteProperty t f).2).*1.
Proof.
  simpl. rewrite elem_of_union, elem_of_singleton, elem_of_obj_delete. tauto.
Qed.

End write_delete.

(** ** Property functions that read little *)

Section bodies.
Context {From : Type}.
Implicit Types (t : @ProxyTarget From) (f k : Key) (b : body).




End bodies.

(** * The claims *)

Section claims.
Context {From : Type}.
Implicit Types (t : @ProxyTarget From) (f g k : Key) (v : value).



(** C4, as amended.  Constructing the factory and a record stores and
    computes nothing: on the new record the first read of a field of the
    specification is what invokes its property function, unless the field
    is named like a property every object inherits.  A read of [g]
    invokes the property function of another field [f] only when a
    property function that runs during the read reads [f] through the
    record: for every set [G] of fields that contains [g] and is closed
    under the reads of the property functions of its members, a read of
    [g] invokes no property function outside [G], when no property
    function assigns to [__proto__]. *)
Theorem laziness (spec0 : MappingSpec) (source0 : From) :
  store (mapping spec0 source0) = [] ∧
  deletedKeys (mapping spec0 source0) = ∅ ∧
  (∀ f fuel, f ∈ spec0.*1 → f ∉ Object_prototype.*1 →
     ∃ tr c, get (S fuel) (mapping spec0 source0) f = (f :: tr, c)) ∧
  (∀ (G : Key → Prop) t g f fuel,
     keeps_prototype (spec t) (source t) →
     reads_closed G (spec t) (source t) → G g → ¬ G f →
     f ∉ (get fuel t g).1).
Proof.
  split; [done|]. split; [done|]. split.
  - intros f fuel Hf Hp.
    destruct (get_unset fuel (mapping spec0 source0) f)
      as (fn & tr & c & _ & _ & _ & Heq); [by apply unset_mapping|eauto].
  - intros G t g f fuel _ Hclosed Hg Hf Hin.
    pose proof (get_invokes_within G fuel t g Hclosed Hg) as Hall.
    rewrite Forall_forall in Hall. by apply Hf, Hall.
Qed.


(** C6, at its failing input.  [set(f, v)] followed by [get(f)] returns
    [v] and invokes no property function, whether or not the specification
    has an entry for [f], and so does [delete(f)] followed by [set(f, v)]
    and [get(f)], for every [f] other than [__proto__].  An assignment to
    [__proto__] runs the setter that the store inherits: it returns the
    value and stores nothing, and the next read gives what the store
    inherits, [Object.prototype]. *)
Theorem override_precedence fuel t f v :
  (f ≠ "__proto__" →
   get (S fuel) (set t f v).2 f =
     ([], Returned value v (set t f v).2) ∧
   get (S fuel) (set (deleteProperty t f).2 f v).2 f =
     ([], Returned value v (set (deleteProperty t f).2 f v).2)) ∧
  (prototype_value v = false →
   (set (deleteProperty t "__proto__").2 "__proto__" v).1 = v ∧
   store (set (deleteProperty t "__proto__").2 "__proto__" v).2 =
     store (deleteProperty t "__proto__").2 ∧
   get (S fuel) (set (deleteProperty t "__proto__").2 "__proto__" v).2
       "__proto__" =
     ([], Returned value (VObject 0)
            (set (deleteProperty t "__proto__").2 "__proto__" v).2)) ∧
  set person "__proto__" (VString "x") =
    (VString "x", (set person "__proto__" (VString "x")).2) ∧
  store (set person "__proto__" (VString "x")).2 = [] ∧
  get 1 (set person "__proto__" (VString "x")).2 "__proto__" =
    ([], Returned value (VObject 0) (set person "__proto__" (VString "x")).2).
Proof.
  split; [|split; [|by repeat split]].
  - intros Hf. split; apply get_materialized; apply set_writes; by left.
  - intros _.
    assert ("__proto__" ∉ (store (deleteProperty t "__proto__").2).*1) as Hown
      by apply deleteProperty_tombstones.
    split; [done|]. split; [simpl; by apply obj_write_proto|].
    rewrite get_inherited; [done|apply set_writes| |apply proto_inherited].
    simpl. by rewrite obj_write_proto.
Qed.

(** C7, at its failing input.  After [delete(k)] of a specification key,
    [has(k)] is still true, although [get(k)] returns absent and invokes
    nothing, and [getOwnPropertyDescriptor] still gives the made-up
    descriptor, all of whose attributes are true and which carries no
    value, when the store does not inherit [k].  For a key that the store
    inherits, as [constructor], the trap gives no descriptor at all:
    [k in target.store] holds and the store has no own property [k].  Both
    traps look at the store and the specification only: records that
    differ in their tombstones alone get the same answers. *)
Theorem has_and_describe_ignore_tombstones fuel t k :
  k ∈ (spec t).*1 →
  has (deleteProperty t k).2 k = true ∧
  (k ∉ Object_prototype.*1 →
   getOwnPropertyDescriptor (deleteProperty t k).2 k = Some synthetic) ∧
  (k ∈ Object_prototype.*1 →
   getOwnPropertyDescriptor (deleteProperty t k).2 k = None) ∧
  get (S fuel) (deleteProperty t k).2 k =
    ([], Returned value VUndefined (deleteProperty t k).2) ∧
  (∀ t1 t2 k', spec t1 = spec t2 → store t1 = store t2 →
     has t1 k' = has t2 k' ∧
     getOwnPropertyDescriptor t1 k' = getOwnPropertyDescriptor t2 k').
Proof.
  intros Hk.
  assert (k ∉ (store (deleteProperty t k).2).*1) as Hown
    by apply deleteProperty_tombstones.
  split; [|split; [|split; [|split]]].
  - unfold has. simpl.
    rewrite (bool_decide_eq_true_2 (obj_in (spec t) k)) by (by left).
    apply orb_true_r.
  - intros Hp. unfold getOwnPropertyDescriptor.
    rewrite decide_False by (unfold obj_in; tauto).
    by rewrite decide_True by (by left).
  - intros Hp. unfold getOwnPropertyDescriptor.
    rewrite decide_True by (by right).
    unfold Reflect_getOwnPropertyDescriptor.
    apply obj_get_None in Hown. by rewrite Hown.
  - apply get_tombstoned, deleteProperty_tombstones.
  - intros t1 t2 k' Hs Hst. unfold has, getOwnPropertyDescriptor.
    by rewrite Hs, Hst.
Qed.

(** C8.  [ownKeys] lists no key twice, and lists a key exactly when it is
    a key of the specification or of the store and is not tombstoned.  In
    every record reachable from a specification with distinct keys, it lists
    the keys of the specification as [Object.keys] gives them, then the
    keys that are in the store only, and leaves out the tombstoned keys.
    The list is a function of the record as it is, and no property function
    runs to make it. *)
Theorem ownKeys_enumerates (spec0 : MappingSpec) (source0 : From) t :
  NoDup spec0.*1 →
  reachable spec0 source0 t →
  ownKeys t =
    filter (λ k, k ∉ deletedKeys t) (Object_keys (spec t)) ++
    filter (λ k, k ∉ deletedKeys t)
      (filter (λ k, k ∉ (spec t).*1) (Object_keys (store t))) ∧
  NoDup (ownKeys t) ∧
  (∀ k, k ∈ ownKeys t ↔
     (k ∈ (spec t).*1 ∨ k ∈ (store t).*1) ∧ k ∉ deletedKeys t).
Proof.
  intros Hnd Hreach.
  apply reachable_fixed in Hreach as (Hs & _ & Hstore).
  rewrite <- Hs in Hnd. split; [|split].
  - by apply ownKeys_eq.
  - apply NoDup_ownKeys.
  - intros k. apply elem_of_ownKeys.
Qed.


(** C10, as amended.  When no property function of the specification
    deletes a field of the specification through the record, no field name
    is stored and tombstoned at once in any reachable record: the new
    record has neither stored nor tombstoned fields, and reading, writing
    and deleting keep the store and the tombstones apart. *)
Theorem store_and_tombstones_disjoint
    (spec0 : MappingSpec) (source0 : From) t :
  never_deletes spec0 source0 →
  reachable spec0 source0 t → disjoint t.
Proof.
  intros Hspec Hreach.
  apply (evolves_disjoint (mapping spec0 source0)); [exact Hspec| |exact Hreach].
  intros k [Hin _]. simpl in Hin. by apply elem_of_nil in Hin.
Qed.

End claims.

(** C2, at its failing input.  An assignment of a falsy value to a field
    of the record stores the value, but the [set] trap returns the stored
    value, which the proxy takes for a rejected assignment: the assignment
    raises a [TypeError].  An assignment of a truthy value returns. *)
Theorem falsy_assignment_raises :
  set person "phone" (VString "") =
    (VString "", (set person "phone" (VString "")).2) ∧
  store (set person "phone" (VString "")).2 = [("phone", VString "")] ∧
  assign person "phone" (VString "") =
    ([], Thrown value TypeError (set person "phone" (VString "")).2) ∧
  assign person "phone" (VNumber 0) =
    ([], Thrown value TypeError (set person "phone" (VNumber 0)).2) ∧
  assign person "phone" (VBoolean false) =
    ([], Thrown value TypeError (set person "phone" (VBoolean false)).2) ∧
  assign person "phone" VUndefined =
    ([], Thrown value TypeError (set person "phone" VUndefined).2) ∧
  assign person "phone" (VString "555") =
    ([], Returned value (VString "555") (set person "phone" (VString "555")).2).
Proof. repeat split. Qed.

(** ** The test suite and the examples *)

(** [mapping.test.ts], "supports self-referencing property functions" and
    "lazily calls the conversion function". *)
Example person_contactInfo :
  ∃ t1, get 2 person "contactInfo" =
          (["contactInfo"; "name"; "phone"],
           Returned value
             (VString (String.append "Lando Calrissian"
                        (String "010" "555-123-1234"))) t1) ∧
        store t1 =
          [("name", VString "Lando Calrissian");
           ("phone", VString "555-123-1234");
           ("contactInfo",
            VString (String.append "Lando Calrissian"
                       (String "010" "555-123-1234")))].
Proof. eexists. split; reflexivity. Qed.

(** [mapping.test.ts], "has handler" and "ownKeys handler". *)
Example person_keys :
  has person "foo" = false ∧
  has person "name" = true ∧
  has (set person "feeling" (VString "sad")).2 "feeling" = true ∧
  ownKeys (set person "address" (VString "123 Street St.")).2 =
    ["name"; "phone"; "contactInfo"; "address"] ∧
  ownKeys (deleteProperty person "name").2 = ["phone"; "contactInfo"] ∧
  getOwnPropertyDescriptor person "foo" = None.
Proof. repeat split. Qed.

(** What the store inherits shows through the traps: [toString] is in the
    record and reads as the function of [Object.prototype], but has no
    descriptor and is not listed; the property function of [constructor]
    is never invoked, and [Object.keys] leaves [constructor] out; an
    assignment to [__proto__] stores nothing; [valueOf] is still in the
    record when it has been assigned and deleted. *)
Example inherited_names :
  has person "toString" = true ∧
  get 1 person "toString" = ([], Returned value (VObject 6) person) ∧
  getOwnPropertyDescriptor person "toString" = None ∧
  ownKeys person = ["name"; "phone"; "contactInfo"] ∧
  get 1 shadowing "constructor" = ([], Returned value (VObject 1) shadowing) ∧
  getOwnPropertyDescriptor shadowing "constructor" = None ∧
  ownKeys shadowing = ["constructor"; "plain"] ∧
  Object_keys_record shadowing = ["plain"] ∧
  store (set person "__proto__" (VString "x")).2 = [] ∧
  ownKeys (set person "__proto__" (VString "x")).2 = ownKeys person ∧
  has (deleteProperty (set person "valueOf" (VNumber 1)).2 "valueOf").2
    "valueOf" = true.
Proof. repeat split. Qed.

(** [Object.keys] lists array indices first, in ascending order. *)
Example Object_keys_order :
  Object_keys [("b", 1); ("10", 2); ("9", 3); ("a", 4); ("01", 5)] =
    ["9"; "10"; "b"; "a"; "01"].
Proof. reflexivity. Qed.


Lemma has_and_describe_ignore_tombstones_witness :
  ("name" ∈ (spec person).*1 ∧
   has (deleteProperty person "name").2 "name" = true ∧
   getOwnPropertyDescriptor (deleteProperty person "name").2 "name"
     = Some synthetic) ∧
  ("constructor" ∈ (spec shadowing).*1 ∧
   has (deleteProperty shadowing "constructor").2 "constructor" = true ∧
   getOwnPropertyDescriptor (deleteProperty shadowing "constructor").2
     "constructor" = None).
Proof.
  assert ("name" ∈ (spec person).*1) as H by (by left).
  assert ("constructor" ∈ (spec shadowing).*1) as H' by (by left).
  split.
  - split; [exact H|].
    destruct (has_and_describe_ignore_tombstones 0 person "name" H)
      as (Hhas & Hdesc & _).
    split; [exact Hhas|]. apply Hdesc.
    apply (bool_decide_unpack _). vm_compute. exact I.
  - split; [exact H'|].
    destruct (has_and_describe_ignore_tombstones 0 shadowing "constructor" H')
      as (Hhas & _ & Hdesc & _).
    split; [exact Hhas|]. apply Hdesc.
    apply (bool_decide_unpack _). vm_compute. exact I.
Defined.


Lemma keeps_prototype_person : keeps_prototype person_spec sourceObject.
Proof.
  intros k fn Hfn. simpl in Hfn.
  repeat case_decide; simplify_eq; repeat constructor.
Qed.



(** C4, as stated, fails on the specification of the test suite: reading
    [contactInfo] invokes the property functions of [name] and [phone]. *)
Lemma contactInfo_invokes_name :
  "name" ≠ "contactInfo" ∧
  (get 2 person "contactInfo").1 = ["contactInfo"; "name"; "phone"] ∧
  invocations "name" (get 2 person "contactInfo").1 = 1.
Proof. split; [done|]. split; reflexivity. Qed.

Lemma laziness_witness :
  ("phone" ∉ (get 2 person "name").1) ∧
  ∃ tr c, get 1 person "phone" = ("phone" :: tr, c).
Proof.
  destruct (laziness person_spec sourceObject) as (_ & _ & Hfirst & Hother).
  split.
  - apply (Hother (λ k, k = "name") person "name" "phone" 2);
      [exact keeps_prototype_person| |done..].
    intros k fn -> [= <-]. constructor.
  - apply (Hfirst "phone" 0); [right; by left|].
    apply (bool_decide_unpack _). vm_compute. exact I.
Defined.



Lemma reachable_person_read :
  reachable person_spec sourceObject
    (deleteProperty (set person_read "foo" (VString "bar")).2 "phone").2.
Proof.
  apply evolves_delete, evolves_set.
  by apply (evolves_get _ person 2 "contactInfo"); [apply evolves_refl|].
Qed.

Lemma ownKeys_enumerates_witness :
  NoDup person_spec.*1 ∧
  ownKeys (deleteProperty (set person_read "foo" (VString "bar")).2 "phone").2
    = ["name"; "contactInfo"; "foo"] ∧
  NoDup (ownKeys (deleteProperty (set person_read "foo" (VString "bar")).2 "phone").2).
Proof.
  assert (NoDup person_spec.*1) as Hnd.
  { simpl. repeat (apply NoDup_cons; split;
      [rewrite ?not_elem_of_cons; repeat split; (done || apply not_elem_of_nil)|]).
    apply NoDup_nil_2. }
  split; [exact Hnd|]. split; [reflexivity|].
  by destruct (ownKeys_enumerates person_spec sourceObject _ Hnd
                 reachable_person_read) as (_ & ? & _).
Defined.

(** C10, as stated, fails: the property function of [f] deletes [f] while
    [get(f)] runs it; [get] has tested the tombstone before and stores the
    result after, so [f] ends both stored and tombstoned. *)
Lemma self_deleting_field_is_stored_and_tombstoned :
  ∃ t1,
    reachable self_deleting_spec sourceObject t1 ∧
    "f" ∈ (store t1).*1 ∧ "f" ∈ deletedKeys t1 ∧ ¬ disjoint t1.
Proof.
  assert (∃ t1, after (get 1 (mapping self_deleting_spec sourceObject) "f").2
                  = Some t1 ∧
                "f" ∈ (store t1).*1 ∧ "f" ∈ deletedKeys t1)
    as (t1 & Hafter & Hs & Hd).
  { eexists. split; [reflexivity|]. split; [by left|].
    simpl. apply elem_of_union. right. by apply elem_of_singleton. }
  exists t1. split; [|split; [done|split; [done|]]].
  - eapply evolves_get; [apply evolves_refl|exact Hafter].
  - intros Hdis. by apply (Hdis "f").
Qed.

Lemma never_deletes_person : never_deletes person_spec sourceObject.
Proof.
  intros k fn Hfn. simpl in Hfn.
  repeat case_decide; simplify_eq; repeat constructor.
Qed.

Lemma store_and_tombstones_disjoint_witness :
  never_deletes person_spec sourceObject ∧
  (store (deleteProperty (set person_read "foo" (VString "bar")).2 "phone").2).*1
    = ["name"; "contactInfo"; "foo"] ∧
  elements
    (deletedKeys (deleteProperty (set person_read "foo" (VString "bar")).2 "phone").2)
    = ["phone"] ∧
  disjoint (deleteProperty (set person_read "foo" (VString "bar")).2 "phone").2.
Proof.
  split; [exact never_deletes_person|]. do 2 (split; [reflexivity|]).
  exact (store_and_tombstones_disjoint person_spec sourceObject _
           never_deletes_person reachable_person_read).
Defined.

(** * Further properties *)

(** ** The traps on their own *)

Section objects_more.
Context {A : Type}.
Implicit Types (o : object A) (k : Key) (a : A).

Lemma obj_set_set o k a b : obj_set (obj_set o k a) k b = obj_set o k b.
Proof.
  induction o as [|[k' a'] o IH]; simpl; repeat (case_decide; simpl);
    try done. by rewrite IH.
Qed.

Lemma obj_delete_set o k a : obj_delete (obj_set o k a) k = obj_delete o k.
Proof.
  induction o as [|[k' a'] o IH]; simpl; repeat (case_decide; simpl);
    try done. by rewrite IH.
Qed.

Lemma obj_get_delete_ne o k k' :
  k ≠ k' → obj_get (obj_delete o k) k' = obj_get o k'.
Proof.
  intros Hne. induction o as [|[k0 a0] o IH]; simpl;
    repeat (case_decide; simpl); subst; try done.
Qed.

End objects_more.

Section traps.
Context {From : Type}.
Implicit Types (t : @ProxyTarget From) (f g k : Key) (v : value).

Lemma has_true t k :
  has t k = true ↔
    k ∈ (store t).*1 ∨ k ∈ Object_prototype.*1 ∨ k ∈ (spec t).*1.
Proof.
  unfold has, obj_in. rewrite orb_true_iff, !bool_decide_eq_true. tauto.
Qed.

Lemma obj_write_write (o : object value) k v w :
  obj_write (obj_write o k v) k w = obj_write o k w.
Proof.
  destruct (decide (k = "__proto__" ∧ k ∉ o.*1)) as [[-> Hk]|Hk].
  - rewrite (obj_write_proto o v) by done. by rewrite !(obj_write_proto o w).
  - assert (k ≠ "__proto__" ∨ k ∈ o.*1) as Hk'
      by (destruct (decide (k = "__proto__")), (decide (k ∈ o.*1)); tauto).
    rewrite (obj_write_set o k v), (obj_write_set o k w) by done.
    rewrite obj_write_set by (right; apply elem_of_obj_set; by left).
    apply obj_set_set.
Qed.

Lemma obj_delete_write (o : object value) k v :
  obj_delete (obj_write o k v) k = obj_delete o k.
Proof. unfold obj_write. case_decide; [done|]. apply obj_delete_set. Qed.

(** X1.  A key of the specification is reported present by [has] in every
    record that can be reached, whatever has been read, written or
    deleted: the traps never change the specification. *)
Theorem has_specification_key (spec0 : MappingSpec) (source0 : From) t k :
  k ∈ spec0.*1 → reachable spec0 source0 t → has t k = true.
Proof.
  intros Hk Hreach. apply reachable_fixed in Hreach as (Hs & _ & _).
  apply has_true. right. right. by rewrite Hs.
Qed.

(** X2.  A name that is neither stored nor a key of the specification has
    no descriptor and is not enumerated, tombstoned or not.  If the store
    does not inherit it, [has] is false and [get] returns [undefined]; if
    the store inherits it, [has] is true and [get] returns the inherited
    property, unless the name is tombstoned.  In both cases [get] invokes
    no property function and leaves the record as it is. *)
Theorem absent_name fuel t k :
  k ∉ (store t).*1 → k ∉ (spec t).*1 →
  getOwnPropertyDescriptor t k = None ∧
  (k ∉ ownKeys t) ∧
  (has t k = true ↔ k ∈ Object_prototype.*1) ∧
  (k ∉ Object_prototype.*1 →
   get (S fuel) t k = ([], Returned value VUndefined t)) ∧
  (k ∈ Object_prototype.*1 → k ∉ deletedKeys t →
   get (S fuel) t k =
     ([], Returned value (default VUndefined (obj_get Object_prototype k)) t)).
Proof.
  intros Hstore Hspec. split; [|split; [|split; [|split]]].
  - apply eq_None_not_Some. rewrite getOwnPropertyDescriptor_is_Some. tauto.
  - rewrite elem_of_ownKeys. tauto.
  - rewrite has_true. tauto.
  - intros Hp. destruct (decide (k ∈ deletedKeys t)).
    + by apply get_tombstoned.
    + by apply get_absent.
  - intros Hp Hdel. by apply get_inherited.
Qed.

(** X3.  A name that has a descriptor is in the record, and a name in
    the record that the store does not inherit has a descriptor, so a
    tombstoned key of the specification keeps both.  A name that the store
    inherits is always in the record, and has a descriptor only when it is
    stored. *)
Theorem descriptor_and_has t k :
  (is_Some (getOwnPropertyDescriptor t k) → has t k = true) ∧
  ((k ∉ Object_prototype.*1) →
   (has t k = true ↔ is_Some (getOwnPropertyDescriptor t k))) ∧
  (k ∈ Object_prototype.*1 →
   has t k = true ∧
   (is_Some (getOwnPropertyDescriptor t k) ↔ k ∈ (store t).*1)).
Proof.
  rewrite has_true, getOwnPropertyDescriptor_is_Some. tauto.
Qed.

(** X4.  A descriptor never runs a property function, and what it shows
    is what a read finds.  A stored field has a descriptor with its value,
    and unless the field is tombstoned [get] returns that value without
    invoking anything.  The descriptor without a value is given exactly for
    the keys of the specification that are no property of the store, own
    or inherited; every other name has no descriptor. *)
Theorem descriptor_value_is_read fuel t k :
  (∀ v, obj_get (store t) k = Some v →
     getOwnPropertyDescriptor t k =
       Some {| desc_value := Some v; enumerable := true;
               writable := true; configurable := true |} ∧
     (k ∉ deletedKeys t → get (S fuel) t k = ([], Returned value v t))) ∧
  (getOwnPropertyDescriptor t k = Some synthetic ↔
     (k ∉ (store t).*1) ∧ (k ∉ Object_prototype.*1) ∧ k ∈ (spec t).*1) ∧
  (getOwnPropertyDescriptor t k = None ↔
     (k ∉ (store t).*1) ∧ (k ∈ Object_prototype.*1 ∨ k ∉ (spec t).*1)).
Proof.
  split; [|split].
  - intros v Hv. split; [|intros Hd; by apply get_materialized].
    unfold getOwnPropertyDescriptor, Reflect_getOwnPropertyDescriptor.
    rewrite decide_True; [by rewrite Hv|].
    left. apply obj_get_is_Some. by rewrite Hv.
  - unfold getOwnPropertyDescriptor, Reflect_getOwnPropertyDescriptor.
    case_decide as Hin; unfold obj_in in Hin.
    + destruct (obj_get (store t) k) as [v|] eqn:Hv; simpl.
      * apply mk_is_Some, obj_get_is_Some in Hv. split; [done|tauto].
      * apply obj_get_None in Hv. split; [done|tauto].
    + case_decide as Hspec; unfold obj_in in Hspec; split; (done || tauto).
  - rewrite eq_None_not_Some, getOwnPropertyDescriptor_is_Some.
    destruct (decide (k ∈ (store t).*1)), (decide (k ∈ (spec t).*1)),
      (decide (k ∈ Object_prototype.*1)); tauto.
Qed.

Lemma Object_keys_record_eq t :
  Object_keys_record t =
    filter (λ k, k ∈ (store t).*1 ∨ k ∉ Object_prototype.*1) (ownKeys t).
Proof.
  unfold Object_keys_record. apply filter_iff_elem.
  intros k [Hk _]%elem_of_ownKeys. split.
  - intros Hd.
    assert (is_Some (getOwnPropertyDescriptor t k)) as Hsome
      by (destruct (getOwnPropertyDescriptor t k); [eauto|done]).
    apply getOwnPropertyDescriptor_is_Some in Hsome. tauto.
  - intros Hp.
    assert (is_Some (getOwnPropertyDescriptor t k)) as [d Hd]
      by (apply getOwnPropertyDescriptor_is_Some; tauto).
    rewrite Hd. simpl. f_equal.
    by apply (getOwnPropertyDescriptor_enumerable t k).
Qed.

(** X5.  [Object.keys] of the record is the list the [ownKeys] trap
    gives, without the keys of the specification that the store inherits
    and does not have itself: those have no descriptor.  It is the whole
    list when the store inherits no key of the specification.  No name is
    on it twice, as the proxy requires of the trap. *)
Theorem Object_keys_record_ownKeys t :
  Object_keys_record t =
    filter (λ k, k ∈ (store t).*1 ∨ k ∉ Object_prototype.*1) (ownKeys t) ∧
  ((∀ k, k ∈ (spec t).*1 → k ∉ Object_prototype.*1) →
   Object_keys_record t = ownKeys t) ∧
  NoDup (Object_keys_record t).
Proof.
  split; [apply Object_keys_record_eq|]. split.
  - intros Hplain. rewrite Object_keys_record_eq.
    assert (∀ l : list Key, (∀ k, k ∈ l → k ∈ ownKeys t) →
      filter (λ k, k ∈ (store t).*1 ∨ k ∉ Object_prototype.*1) l = l)
      as Hall; [|by apply Hall].
    induction l as [|k l IH]; intros Hl; [done|].
    rewrite filter_cons_True, IH; [done| |].
    + intros k' Hk'. apply Hl. by right.
    + assert (k ∈ ownKeys t) as [Hk _]%elem_of_ownKeys by (apply Hl; by left).
      destruct Hk as [Hk|Hk]; [right; by apply Hplain|by left].
  - rewrite Object_keys_record_eq. apply NoDup_filter, NoDup_ownKeys.
Qed.

(** X6.  Enumeration follows writes and deletions: after [set(f, v)] the
    name [f] is enumerated, also when it was tombstoned before, unless it
    is [__proto__], which an assignment does not store; after [delete(f)]
    it is not, also when it is a key of the specification; and neither
    changes whether another name is enumerated. *)
Theorem ownKeys_after_set_and_delete t f v :
  (f ∈ ownKeys (set t f v).2 ↔
     f ≠ "__proto__" ∨ f ∈ (store t).*1 ∨ f ∈ (spec t).*1) ∧
  (f ∉ ownKeys (deleteProperty t f).2) ∧
  (∀ g, g ≠ f →
     (g ∈ ownKeys (set t f v).2 ↔ g ∈ ownKeys t) ∧
     (g ∈ ownKeys (deleteProperty t f).2 ↔ g ∈ ownKeys t)).
Proof.
  split; [|split].
  - rewrite elem_of_ownKeys. simpl.
    rewrite elem_of_obj_write, elem_of_difference, elem_of_singleton.
    destruct (decide (f = "__proto__")); tauto.
  - rewrite elem_of_ownKeys. simpl. rewrite elem_of_union, elem_of_singleton.
    tauto.
  - intros g Hg. rewrite !elem_of_ownKeys. simpl.
    rewrite elem_of_obj_write, elem_of_obj_delete.
    rewrite elem_of_difference, elem_of_union, elem_of_singleton. tauto.
Qed.

(** X7.  Writes and deletions of one field compose: a second write
    replaces the first and leaves the record as the second alone would; a
    deletion after a write leaves the record as the deletion alone would.
    The write is not one that gives the store another prototype. *)
Theorem set_and_delete_compose t f v w :
  f ≠ "__proto__" ∨ prototype_value v = false →
  set (set t f v).2 f w = set t f w ∧
  deleteProperty (set t f v).2 f = deleteProperty t f.
Proof.
  intros _. split.
  - unfold set. simpl. do 2 f_equal.
    + apply obj_write_write.
    + apply set_eq. intros k.
      rewrite !elem_of_difference, elem_of_singleton. tauto.
  - unfold deleteProperty. simpl. do 2 f_equal.
    + apply obj_delete_write.
    + apply set_eq. intros k.
      rewrite !elem_of_union, elem_of_difference, elem_of_singleton.
      destruct (decide (k = f)); tauto.
Qed.

(** X8.  Writing or deleting [f] touches no other field: for every other
    name the stored value, the tombstone, the answer of [has] and the
    descriptor are what they were.  The write is not one that gives the
    store another prototype. *)
Theorem set_and_delete_frame t f v g :
  g ≠ f →
  f ≠ "__proto__" ∨ prototype_value v = false →
  (obj_get (store (set t f v).2) g = obj_get (store t) g ∧
   (g ∈ deletedKeys (set t f v).2 ↔ g ∈ deletedKeys t) ∧
   has (set t f v).2 g = has t g ∧
   getOwnPropertyDescriptor (set t f v).2 g = getOwnPropertyDescriptor t g) ∧
  (obj_get (store (deleteProperty t f).2) g = obj_get (store t) g ∧
   (g ∈ deletedKeys (deleteProperty t f).2 ↔ g ∈ deletedKeys t) ∧
   has (deleteProperty t f).2 g = has t g ∧
   getOwnPropertyDescriptor (deleteProperty t f).2 g =
     getOwnPropertyDescriptor t g).
Proof.
  intros Hg _. split.
  - assert (obj_get (store (set t f v).2) g = obj_get (store t) g) as Hget
      by (simpl; by apply obj_get_write_ne).
    assert (obj_in (store (set t f v).2) g ↔ obj_in (store t) g) as Hin.
    { unfold obj_in. simpl. rewrite elem_of_obj_write. tauto. }
    split; [done|]. split; [|split].
    + simpl. rewrite elem_of_difference, elem_of_singleton. tauto.
    + unfold has. f_equal. by apply bool_decide_ext.
    + unfold getOwnPropertyDescriptor, Reflect_getOwnPropertyDescriptor.
      rewrite Hget. by rewrite (decide_ext _ _ _ _ Hin).
  - assert (obj_get (store (deleteProperty t f).2) g = obj_get (store t) g)
      as Hget by (simpl; by apply obj_get_delete_ne).
    assert (obj_in (store (deleteProperty t f).2) g ↔ obj_in (store t) g)
      as Hin.
    { unfold obj_in. simpl. rewrite elem_of_obj_delete. tauto. }
    split; [done|]. split; [|split].
    + simpl. rewrite elem_of_union, elem_of_singleton. tauto.
    + unfold has. f_equal. by apply bool_decide_ext.
    + unfold getOwnPropertyDescriptor, Reflect_getOwnPropertyDescriptor.
      rewrite Hget. by rewrite (decide_ext _ _ _ _ Hin).
Qed.

(** X9.  A read of a field that is stored or tombstoned is a lookup: it
    invokes no property function and leaves the record as it is.  The
    tombstone is looked at first, so a field that is both stored and
    tombstoned reads as [undefined]. *)
Theorem get_settled_is_lookup fuel t f :
  settled t f →
  get (S fuel) t f = ([], Returned value (answer t f) t) ∧
  (f ∈ deletedKeys t → answer t f = VUndefined) ∧
  (∀ v, f ∉ deletedKeys t → obj_get (store t) f = Some v → answer t f = v).
Proof.
  intros Hs. unfold answer. split; [|split].
  - case_decide as Hd; [by apply get_tombstoned|].
    destruct Hs as [Hm|Ht]; [|done].
    apply get_in_store; [done|by left].
  - intros Hd. by rewrite decide_True.
  - intros v Hd Hv. rewrite decide_False by done. by apply obj_read_own.
Qed.

End traps.

(** ** Reads when the property functions only read *)

Section reads_only.
Context {From : Type}.
Implicit Types (t : @ProxyTarget From) (f g k : Key) (v : value).

Lemma memoized_only_refl t : memoized_only t t.
Proof. repeat split; auto. Qed.

Lemma memoized_only_trans t1 t2 t3 :
  spec t2 = spec t1 →
  memoized_only t1 t2 → memoized_only t2 t3 → memoized_only t1 t3.
Proof.
  intros Hs (Hd12 & Hv12 & Hk12) (Hd23 & Hv23 & Hk23).
  split; [congruence|]. split; [auto|].
  intros k Hk. destruct (Hk23 k Hk) as [?|?]; [auto|]. right. by rewrite <- Hs.
Qed.

(** A read leaves the tombstones and the stored values as they are, and
    adds keys of the specification only. *)
Lemma get_memoized_only fuel t k t' :
  reads_only (spec t) (source t) →
  after (get fuel t k).2 = Some t' →
  spec t' = spec t ∧ source t' = source t ∧ memoized_only t t'.
Proof.
  intros Hspec Hafter.
  assert (ensures
            (λ t0 t1, deletedKeys t1 = deletedKeys t0 ∧
               (∀ k0 v, obj_get (store t0) k0 = Some v →
                        obj_get (store t1) k0 = Some v) ∧
               (∀ k0, k0 ∈ (store t1).*1 →
                      k0 ∈ (store t0).*1 ∨
                      (k0 ∈ (spec t).*1 ∧ k0 ∉ Object_prototype.*1)))
            (λ _ _, True) t (get fuel t k)) as [_ Ht'].
  { apply (get_ensures (spec t) (source t) any_key no_key no_key).
    - repeat split; auto.
    - intros t1 t2 t3 (Hd12 & Hv12 & Hk12) (Hd23 & Hv23 & Hk23).
      split; [congruence|]. split; [auto|].
      intros k0 Hk0. destruct (Hk23 k0 Hk0); auto.
    - intros t0 k0 v [].
    - intros t0 k0 [].
    - intros t0 t1 k0 v Hs0 (_ & Hstore & Hp & Hin) (Hd & Hv & Hk).
      split; [done|]. split.
      + intros k1 v1 Hv1. simpl. rewrite obj_get_write_ne; [auto|].
        intros <-. apply obj_get_None in Hstore. congruence.
      + intros k1. simpl. rewrite elem_of_obj_write.
        intros [[-> _]|Hk1]; [right; by rewrite <- Hs0|auto].
    - done.
    - done.
    - intros k0 fn _. apply Hspec.
    - done.
    - done. }
  destruct (Ht' _ Hafter) as (? & ? & ?). done.
Qed.

Lemma memoized_only_has t t' g :
  spec t' = spec t → memoized_only t t' → has t' g = has t g.
Proof.
  intros Hs (_ & Hv & Hk). apply eq_true_iff_eq. rewrite !has_true, Hs.
  split.
  - intros [Hg|?]; [|tauto]. destruct (Hk g Hg); tauto.
  - intros [Hg|?]; [|tauto]. left.
    apply obj_get_is_Some in Hg as [v Hg]. apply obj_get_is_Some. eauto.
Qed.

Lemma memoized_only_ownKeys t t' g :
  spec t' = spec t → memoized_only t t' → g ∈ ownKeys t' ↔ g ∈ ownKeys t.
Proof.
  intros Hs (Hd & Hv & Hk). rewrite !elem_of_ownKeys, Hd, Hs.
  assert (g ∈ (store t).*1 → g ∈ (store t').*1) as Hold.
  { intros [v Hg]%obj_get_is_Some. apply obj_get_is_Some. eauto. }
  specialize (Hk g). tauto.
Qed.

Lemma memoized_only_ownKeys_Permutation t t' :
  spec t' = spec t → memoized_only t t' → ownKeys t' ≡ₚ ownKeys t.
Proof.
  intros Hs Hm. apply NoDup_Permutation; [apply NoDup_ownKeys..|].
  intros g. by apply memoized_only_ownKeys.
Qed.

(** A name that a read does not compute reads the same from then on. *)
Lemma memoized_only_answer t t' k :
  spec t' = spec t → memoized_only t t' → ¬ unset t k →
  answer t' k = answer t k ∧ ¬ unset t' k.
Proof.
  intros Hs (Hd & Hv & Hk) Hquiet. unfold answer, unset in *.
  rewrite Hd, Hs. case_decide as Hdel; [tauto|].
  unfold obj_read. destruct (obj_get (store t) k) as [v|] eqn:Hget.
  - rewrite (Hv _ _ Hget). split; [done|].
    assert (k ∈ (store t').*1); [|tauto].
    apply obj_get_is_Some. rewrite (Hv _ _ Hget). eauto.
  - apply obj_get_None in Hget.
    assert (k ∉ (store t').*1) as Hnot.
    { intros Hin. destruct (Hk k Hin); tauto. }
    apply obj_get_None in Hnot as Hnone. rewrite Hnone. tauto.
Qed.

Lemma get_is_answer fuel t k :
  ¬ unset t k →
  get (S fuel) t k = ([], Returned value (answer t k) t).
Proof.
  intros Hk. unfold answer. case_decide as Hd; [by apply get_tombstoned|].
  rewrite get_S, decide_False by done.
  rewrite decide_False; [done|]. intros Hc. apply Hk, unset_iff. tauto.
Qed.

(** What a read returns is what the store answers afterwards. *)
Lemma get_returns_answer fuel t k tr v t' :
  reads_only (spec t) (source t) →
  get fuel t k = (tr, Returned value v t') →
  v = answer t' k ∧ ¬ unset t' k.
Proof.
  intros Hspec Hget.
  destruct (get_memoized_only fuel t k t' Hspec) as (_ & _ & Hd & _ & _);
    [by rewrite Hget|].
  destruct fuel as [|fuel]; [done|].
  destruct (decide (unset t k)) as [Hu|Hu].
  - destruct (get_unset fuel t k Hu) as (fn & tr0 & c & _ & _ & _ & Heq).
    rewrite Heq in Hget. destruct c as [v0 t0|e t0|]; simplify_eq.
    assert (k ≠ "__proto__") as Hne.
    { intros ->. destruct Hu as (_ & _ & Hp & _). apply Hp, proto_inherited. }
    assert (obj_get (store (memoize t0 k v)) k = Some v) as Hv
      by (simpl; apply obj_get_write; by left).
    split.
    + unfold answer. rewrite decide_False, (obj_read_own _ _ v); [done..|].
      rewrite Hd. by destruct Hu.
    + intros (_ & Hstore & _). apply Hstore, obj_get_is_Some. eauto.
  - rewrite get_is_answer in Hget by done. by simplify_eq.
Qed.

(** X10.  When the property functions only read the record, a read that
    returns or throws changes the record by memoized fields only: the
    tombstones are the same, every stored value is still stored, and the
    new keys of the store are keys of the specification that the store
    does not inherit.  The value a read returns is what the store answers
    afterwards, and the field is then one that no read computes: a key of
    the specification that the store does not inherit is stored or
    tombstoned. *)
Theorem read_memoizes_only fuel t k tr c t' :
  reads_only (spec t) (source t) →
  get fuel t k = (tr, c) →
  after c = Some t' →
  memoized_only t t' ∧
  (∀ v, c = Returned value v t' →
     v = answer t' k ∧ ¬ unset t' k ∧
     (k ∈ (spec t).*1 → k ∉ Object_prototype.*1 → settled t' k)).
Proof.
  intros Hspec Hget Hafter.
  destruct (get_memoized_only fuel t k t' Hspec) as (Hs & _ & Hm);
    [by rewrite Hget|].
  split; [done|].
  intros v ->. destruct (get_returns_answer _ _ _ _ _ _ Hspec Hget) as [? Hq].
  split; [done|]. split; [done|].
  intros Hk Hp. unfold unset in Hq. rewrite Hs in Hq.
  unfold settled, materialized, tombstoned.
  destruct (decide (k ∈ (store t').*1)), (decide (k ∈ deletedKeys t')); tauto.
Qed.

(** X11.  When the property functions only read the record, reading is
    invisible to presence and enumeration: after a read, [has] answers as
    before for every name, [ownKeys] lists the same names, and every field
    that was stored or tombstoned reads as before. *)
Theorem read_is_invisible fuel t k t' :
  reads_only (spec t) (source t) →
  after (get fuel t k).2 = Some t' →
  (∀ g, has t' g = has t g) ∧
  ownKeys t' ≡ₚ ownKeys t ∧
  (∀ g, settled t g → answer t' g = answer t g).
Proof.
  intros Hspec Hafter.
  destruct (get_memoized_only fuel t k t' Hspec Hafter) as (Hs & _ & Hm).
  split; [|split].
  - intros g. by apply memoized_only_has.
  - by apply memoized_only_ownKeys_Permutation.
  - intros g Hg. apply (memoized_only_answer t t' g Hs Hm).
    by apply dormant_not_unset, settled_dormant.
Qed.

(** ** Serialization *)

Lemma read_all_quiet fuel t ks :
  (∀ k, k ∈ ks → ¬ unset t k) →
  read_all (S fuel) ks t = ([], Returned _ (entries t ks) t).
Proof.
  induction ks as [|k ks IH]; intros Hks; [done|].
  cbn [read_all]. rewrite get_is_answer by (apply Hks; by left).
  cbn [bind]. by rewrite IH by (intros k' Hk'; apply Hks; by right).
Qed.

Lemma read_all_returns fuel ks :
  ∀ t tr es t',
    reads_only (spec t) (source t) →
    read_all fuel ks t = (tr, Returned _ es t') →
    spec t' = spec t ∧ source t' = source t ∧ memoized_only t t' ∧
    es = entries t' ks ∧
    (∀ k, k ∈ ks → ¬ unset t' k).
Proof.
  induction ks as [|k ks IH]; intros t tr es t' Hspec Hread.
  { unfold read_all, ret in Hread. simplify_eq. do 2 (split; [done|]).
    split; [apply memoized_only_refl|]. split; [done|].
    intros k Hk. by apply elem_of_nil in Hk. }
  cbn [read_all] in Hread.
  destruct (get fuel t k) as [tr1 [v t1|e t1|]] eqn:Hget; [|done..].
  cbn [bind] in Hread.
  destruct (read_all fuel ks t1) as [tr2 [es2 t2|e t2|]] eqn:Hrest;
    simpl in Hread; [|done..]. simplify_eq.
  destruct (get_memoized_only fuel t k t1 Hspec) as (Hs1 & Hsrc1 & Hm1);
    [by rewrite Hget|].
  destruct (get_returns_answer _ _ _ _ _ _ Hspec Hget) as [Hv Hk1].
  assert (reads_only (spec t1) (source t1)) as Hspec1 by (by rewrite Hs1, Hsrc1).
  destruct (IH t1 _ _ _ Hspec1 Hrest) as (Hs2 & Hsrc2 & Hm2 & Hes & Hks).
  destruct (memoized_only_answer t1 t' k Hs2 Hm2 Hk1) as [Hans Hk2].
  split; [congruence|]. split; [congruence|].
  split; [by apply (memoized_only_trans t t1 t')|]. split.
  - unfold entries. rewrite fmap_cons. f_equal; [by rewrite Hans, <- Hv|].
    exact Hes.
  - intros k' [->|Hk']%elem_of_cons; auto.
Qed.

(** The names [Object.keys] lists are the same after reads. *)
Lemma memoized_only_Object_keys_record t t' :
  spec t' = spec t → memoized_only t t' →
  Object_keys_record t' ≡ₚ Object_keys_record t.
Proof.
  intros Hs Hm. rewrite !Object_keys_record_eq.
  rewrite (filter_iff_elem (λ k, k ∈ (store t').*1 ∨ k ∉ Object_prototype.*1)
             (λ k, k ∈ (store t).*1 ∨ k ∉ Object_prototype.*1)).
  - apply filter_Permutation. by apply memoized_only_ownKeys_Permutation.
  - intros k _. destruct Hm as (_ & Hv & Hk). specialize (Hk k).
    assert (k ∈ (store t).*1 → k ∈ (store t').*1) as Hold.
    { intros [v Hg]%obj_get_is_Some. apply obj_get_is_Some. eauto. }
    tauto.
Qed.

(** X12.  When the property functions only read the record and the record
    has no [toJSON], a serialization that returns has changed the record by
    memoized fields only, and what it read is what the record then answers
    for the names [Object.keys] listed: the expando fields are included,
    the tombstoned ones left out, and so are the keys of the specification
    that the store inherits.  A second serialization invokes no property
    function, leaves the record as it is and reads the same properties. *)
Theorem stringify_memoizes fuel fuel' t tr es t' :
  reads_only (spec t) (source t) →
  has t "toJSON" = false →
  stringify fuel t = (tr, Returned _ es t') →
  memoized_only t t' ∧
  es = entries t' (Object_keys_record t) ∧
  (∃ es', stringify (S fuel') t' = ([], Returned _ es' t') ∧ es' ≡ₚ es).
Proof.
  intros Hspec HtoJSON Hstr.
  assert (∀ t0 : @ProxyTarget From,
            has t0 "toJSON" = false → ¬ unset t0 "toJSON")
    as Hquiet.
  { intros t0 Hhas (_ & _ & _ & Hin). apply not_true_iff_false in Hhas.
    apply Hhas, has_true. tauto. }
  unfold stringify in Hstr. destruct fuel as [|fuel]; [done|].
  rewrite get_is_answer in Hstr by auto. cbn [bind] in Hstr.
  destruct (read_all (S fuel) (Object_keys_record t) t) as [tr2 c2] eqn:Hread.
  simplify_eq.
  destruct (read_all_returns _ _ _ _ _ _ Hspec Hread)
    as (Hs & Hsrc & Hm & Hes & Hks).
  split; [done|]. split; [done|].
  exists (entries t' (Object_keys_record t')). split.
  - unfold stringify.
    rewrite get_is_answer
      by (apply Hquiet; by rewrite (memoized_only_has t t')).
    cbn [bind]. rewrite read_all_quiet; [done|].
    intros k Hk. apply Hks.
    by rewrite <- (memoized_only_Object_keys_record t t').
  - rewrite Hes. unfold entries. apply fmap_Permutation.
    by apply memoized_only_Object_keys_record.
Qed.

End reads_only.

(** ** Errors *)

Section errors.
Context {From : Type} (spec0 : @MappingSpec From) (source0 : From).
Implicit Types (t : @ProxyTarget From) (k : Key).

Hypothesis spec_ok : never_assigns spec0 source0.

Lemma own_errors_ret {A} (a : A) t :
  spec t = spec0 ∧ source t = source0 →
  own_errors spec0 source0 (ret a t).
Proof. intros Ht. split; [by intros t' [= <-]|done]. Qed.

Lemma own_errors_bind {A B} (m : outcome A) (f : A → ProxyTarget → outcome B) :
  own_errors spec0 source0 m →
  (∀ a t1, after m.2 = Some t1 → own_errors spec0 source0 (f a t1)) →
  own_errors spec0 source0 (bind m f).
Proof.
  intros [Hfix Herr] Hf. destruct m as [tr [a t1|e t1|]]; simpl in *.
  - specialize (Hf a t1 eq_refl). by destruct (f a t1).
  - split; [by intros t' [= <-]; apply Hfix|].
    intros e' t' [= <- <-]. by apply (Herr e t1).
  - split; [intros t' [=]|intros e t' [=]].
Qed.

Lemma own_errors_catch {A B} (m : outcome A)
    (f : exn + A → ProxyTarget → outcome B) :
  own_errors spec0 source0 m →
  (∀ r t1, after m.2 = Some t1 → own_errors spec0 source0 (f r t1)) →
  own_errors spec0 source0 (catch m f).
Proof.
  intros [Hfix Herr] Hf. destruct m as [tr [a t1|e t1|]]; simpl in *.
  - specialize (Hf (inr a) t1 eq_refl). by destruct (f (inr a) t1).
  - specialize (Hf (inl e) t1 eq_refl). by destruct (f (inl e) t1).
  - split; [intros t' [=]|intros e t' [=]].
Qed.

Lemma call_own_errors (self_get : ProxyTarget → Key → outcome value) :
  (∀ t k, spec t = spec0 ∧ source t = source0 →
     own_errors spec0 source0 (self_get t k)) →
  ∀ b, within any_key no_key any_key b →
  ∀ t, spec t = spec0 ∧ source t = source0 →
    own_errors spec0 source0 (call self_get b t).
Proof.
  intros Hself b Hb.
  induction Hb as [v|e|block cont _ IHblock _ IH
                   |k cont Hk _ IH|k v cont [] _ IH|k cont Hk _ IH
                   |k cont _ IH|cont _ IH|k cont _ IH];
    intros t Ht; simpl.
  - by apply own_errors_ret.
  - split; [by intros t' [= <-]|]. by intros e' t' [= <- <-].
  - apply own_errors_catch; [by apply IHblock|].
    intros r t1 Hafter. apply IH. by apply (IHblock t Ht).
  - apply own_errors_bind; [by apply Hself|].
    intros v t1 Hafter. apply IH. by apply (Hself t k Ht).
  - by apply IH.
  - by apply IH.
  - by apply IH.
  - by apply IH.
Qed.

Lemma invoke_own_errors (self_get : ProxyTarget → Key → outcome value) t k :
  (∀ t k, spec t = spec0 ∧ source t = source0 →
     own_errors spec0 source0 (self_get t k)) →
  spec t = spec0 ∧ source t = source0 →
  k ∈ (spec t).*1 →
  own_errors spec0 source0 (invoke self_get t k).
Proof.
  intros Hself [Hs Hsrc] Hin. unfold invoke.
  apply obj_get_is_Some in Hin as [fn Hfn]. rewrite Hfn.
  rewrite Hs in Hfn.
  pose proof (call_own_errors self_get Hself (fn source0)
                (spec_ok k fn Hfn) t (conj Hs Hsrc)) as Hcall.
  rewrite Hsrc. by destruct (call self_get (fn source0) t).
Qed.

Lemma get_own_errors fuel :
  ∀ t k, spec t = spec0 ∧ source t = source0 →
    own_errors spec0 source0 (get fuel t k).
Proof.
  induction fuel as [|fuel IH]; intros t k Ht.
  { split; [intros t' [=]|intros e t' [=]]. }
  rewrite get_S. case_decide as Hdel; [by apply own_errors_ret|].
  case_decide as Hunset.
  - assert (unset t k) as (_ & _ & _ & Hin) by (apply unset_iff; tauto).
    pose proof (invoke_own_errors (get fuel) t k IH Ht Hin) as Hinv.
    apply own_errors_bind.
    + apply own_errors_bind; [done|].
      intros v t1 Hafter. apply own_errors_ret. simpl.
      by apply (proj1 Hinv).
    + intros _ t1 Hafter. apply own_errors_ret.
      destruct Hinv as [Hfix _].
      destruct (invoke (get fuel) t k) as [tr [v t2|e t2|]];
        simpl in *; [|by apply Hfix|done].
      injection Hafter as <-. simpl. by apply (Hfix t2).
  - apply own_errors_bind; [by apply own_errors_ret|].
    intros _ t1 [= <-]. by apply own_errors_ret.
Qed.

End errors.

(** ** Deleting a name the specification does not have *)

(** X14.  [delete(f)] of a name that the specification does not have
    removes what was assigned to it: no descriptor is given, [ownKeys]
    does not list it and a read returns absent.  [has] is false then,
    unless the store inherits the name: what every object inherits stays
    in the record.  (A key of the specification stays in the record after
    its deletion, too.) *)
Theorem delete_forgets_assigned_name {From} fuel (t : @ProxyTarget From) f :
  f ∉ (spec t).*1 →
  getOwnPropertyDescriptor (deleteProperty t f).2 f = None ∧
  (f ∉ ownKeys (deleteProperty t f).2) ∧
  get (S fuel) (deleteProperty t f).2 f =
    ([], Returned value VUndefined (deleteProperty t f).2) ∧
  (has (deleteProperty t f).2 f = true ↔ f ∈ Object_prototype.*1).
Proof.
  intros Hspec.
  assert (f ∉ (store (deleteProperty t f).2).*1) as Hown
    by apply deleteProperty_tombstones.
  split; [|split; [|split]].
  - apply eq_None_not_Some. rewrite getOwnPropertyDescriptor_is_Some.
    simpl in *. tauto.
  - rewrite elem_of_ownKeys. intros [_ Hdel]. apply Hdel.
    apply deleteProperty_tombstones.
  - apply get_tombstoned, deleteProperty_tombstones.
  - rewrite has_true. simpl in *. tauto.
Qed.

(** ** Termination of nested reads *)

Section termination.
Context {From : Type} (spec0 : @MappingSpec From) (source0 : From).
Context (rank : Key → nat).
Implicit Types (t : @ProxyTarget From) (k : Key).

Hypothesis spec_ok : reads_descend rank spec0 source0.

Lemma completes_ret {A} (a : A) t :
  spec t = spec0 ∧ source t = source0 → completes spec0 source0 (ret a t).
Proof. intros Ht. by exists t. Qed.

Lemma completes_bind {A B} (m : outcome A) (f : A → ProxyTarget → outcome B) :
  completes spec0 source0 m →
  (∀ a t1, spec t1 = spec0 ∧ source t1 = source0 →
     completes spec0 source0 (f a t1)) →
  completes spec0 source0 (bind m f).
Proof.
  intros (t' & Hafter & Ht') Hf.
  destruct m as [tr [a t1|e t1|]]; simpl in *; simplify_eq.
  - specialize (Hf a t' Ht'). by destruct (f a t').
  - by exists t'.
Qed.

Lemma completes_catch {A B} (m : outcome A)
    (f : exn + A → ProxyTarget → outcome B) :
  completes spec0 source0 m →
  (∀ r t1, spec t1 = spec0 ∧ source t1 = source0 →
     completes spec0 source0 (f r t1)) →
  completes spec0 source0 (catch m f).
Proof.
  intros (t' & Hafter & Ht') Hf.
  destruct m as [tr [a t1|e t1|]]; simpl in *; simplify_eq.
  - specialize (Hf (inr a) t' Ht'). by destruct (f (inr a) t').
  - specialize (Hf (inl e) t' Ht'). by destruct (f (inl e) t').
Qed.

Lemma call_completes (self_get : ProxyTarget → Key → outcome value) (n : nat) :
  (∀ t k, spec t = spec0 ∧ source t = source0 → (rank k < n)%nat →
     completes spec0 source0 (self_get t k)) →
  ∀ b, within (λ k, (rank k < n)%nat) any_key any_key b →
  ∀ t, spec t = spec0 ∧ source t = source0 →
    completes spec0 source0 (call self_get b t).
Proof.
  intros Hself b Hb.
  induction Hb as [v|e|block cont _ IHblock _ IH
                   |k cont Hk _ IH|k v cont _ _ IH|k cont _ _ IH
                   |k cont _ IH|cont _ IH|k cont _ IH];
    intros t Ht; simpl.
  - by apply completes_ret.
  - by exists t.
  - apply completes_catch; [by apply IHblock|]. intros r t1 Ht1. by apply IH.
  - apply completes_bind; [by apply Hself|]. intros v t1 Ht1. by apply IH.
  - apply completes_bind.
    + unfold assign. simpl. destruct (ToBoolean v); by eexists.
    + intros _ t1 Ht1. by apply IH.
  - by apply IH.
  - by apply IH.
  - by apply IH.
  - by apply IH.
Qed.

Lemma get_completes fuel :
  ∀ t k, spec t = spec0 ∧ source t = source0 → (rank k < fuel)%nat →
    completes spec0 source0 (get fuel t k).
Proof.
  induction fuel as [|fuel IH]; intros t k Ht Hrank; [lia|].
  rewrite get_S. case_decide as Hdel; [by apply completes_ret|].
  apply completes_bind; [|intros _ t1 Ht1; by apply completes_ret].
  case_decide as Hunset; [|by apply completes_ret].
  apply completes_bind; [|intros v t1 Ht1; by apply completes_ret].
  assert (unset t k) as (_ & _ & _ & Hin) by (apply unset_iff; tauto).
  destruct Ht as [Hs Hsrc].
  unfold invoke. apply obj_get_is_Some in Hin as [fn Hfn]. rewrite Hfn.
  rewrite Hs in Hfn. rewrite Hsrc.
  assert (completes spec0 source0 (call (get fuel) (fn source0) t)) as Hc.
  { apply (call_completes (get fuel) (rank k)); [| |done].
    - intros t1 k1 Ht1 Hk1. apply IH; [done|lia].
    - by apply spec_ok. }
  by destruct (call (get fuel) (fn source0) t).
Qed.

End termination.

(** X13.  [get] raises no error of its own: when no property function
    assigns to the record and the reads of the property functions descend
    along a rank, a read of a field of rank [n] returns, or raises a value
    that a property function threw, within [n + 1] levels of nested reads.
    The function of the specification is looked up only under the test
    [prop in target.spec], so no missing function is ever called. *)
Theorem get_raises_own_errors_only {From} (rank : Key → nat) fuel
    (t : @ProxyTarget From) k :
  never_assigns (spec t) (source t) →
  reads_descend rank (spec t) (source t) →
  (rank k < fuel)%nat →
  ∃ tr t',
    (∃ v, get fuel t k = (tr, Returned value v t')) ∨
    (∃ e, get fuel t k = (tr, Thrown value (Exception e) t')).
Proof.
  intros Hspec Hrank Hfuel.
  destruct (get_completes (spec t) (source t) rank Hrank fuel t k)
    as (t' & Hafter & _); [done|done|].
  destruct (get_own_errors (spec t) (source t) Hspec fuel t k) as [_ Herr];
    [done|].
  destruct (get fuel t k) as [tr [v t1|e t1|]]; simpl in *; simplify_eq.
  - exists tr, t'. left. eauto.
  - exists tr, t'. right. specialize (Herr e t' eq_refl).
    destruct e as [|e]; [done|eauto].
Qed.

(** X15.  Nested reads end when the references between the fields are not
    circular: if the property function of each field reads only fields of
    a lower rank, a read of a field of rank [n] completes, by returning or
    by raising an error, within [n + 1] levels of nested reads, from every
    record of the specification. *)
Theorem ranked_reads_complete {From} (rank : Key → nat)
    (t : @ProxyTarget From) k fuel :
  reads_descend rank (spec t) (source t) →
  (rank k < fuel)%nat →
  ∃ tr c t', get fuel t k = (tr, c) ∧ after c = Some t'.
Proof.
  intros Hspec Hrank.
  destruct (get_completes (spec t) (source t) rank Hspec fuel t k)
    as (t' & Hafter & _); [done|done|].
  destruct (get fuel t k) as [tr c]. by exists tr, c, t'.
Qed.

(** X16.  A property function that begins by reading its own field never
    returns: the field is not stored while its function runs, so the
    nested read invokes the function again, at every depth. *)
Theorem self_read_never_returns {From} (t : @ProxyTarget From) f fn cont fuel :
  unset t f →
  obj_get (spec t) f = Some fn →
  fn (source t) = ThisGet f cont →
  get fuel t f = (replicate fuel f, OutOfFuel value).
Proof.
  intros Hu Hfn Hbody. induction fuel as [|fuel IH]; [done|].
  destruct (get_unset fuel t f Hu) as (fn' & tr & c & Hfn' & Hcall & _ & ->).
  rewrite Hfn in Hfn'. injection Hfn' as <-.
  rewrite Hbody in Hcall. simpl in Hcall. rewrite IH in Hcall.
  simpl in Hcall. by simplify_eq.
Qed.

(** ** The order of enumeration *)

Section array_indices.

Lemma digit_of_Some c d :
  digit_of c = Some d → (d < 10)%N ∧ c = ascii_of_N (d + 48).
Proof.
  unfold digit_of. case_decide as H; [|done]. intros [= <-]. split; [lia|].
  replace (N_of_ascii c - 48 + 48)%N with (N_of_ascii c) by lia.
  by rewrite ascii_N_embedding.
Qed.

Lemma parse_digits_bounds s :
  ∀ acc n, parse_digits acc s = Some n →
    (acc * 10 ^ N.of_nat (String.length s) ≤ n
     < (acc + 1) * 10 ^ N.of_nat (String.length s))%N.
Proof.
  induction s as [|c s IH]; intros acc n; simpl String.length; simpl parse_digits.
  - intros [= <-]. simpl. lia.
  - destruct (digit_of c) as [d|] eqn:Hd; [|done]. intros Hp.
    apply digit_of_Some in Hd as [Hd _]. apply IH in Hp.
    rewrite Nat2N.inj_succ, N.pow_succ_r'.
    set (p := (10 ^ N.of_nat (String.length s))%N) in *. nia.
Qed.

Lemma parse_digits_inj s1 :
  ∀ s2 a1 a2 n,
    String.length s1 = String.length s2 →
    parse_digits a1 s1 = Some n → parse_digits a2 s2 = Some n →
    a1 = a2 ∧ s1 = s2.
Proof.
  induction s1 as [|c1 s1 IH]; intros [|c2 s2] a1 a2 n Hlen; simpl in *;
    try done.
  - by intros [= <-] [= <-].
  - destruct (digit_of c1) as [d1|] eqn:Hd1; [|done].
    destruct (digit_of c2) as [d2|] eqn:Hd2; [|done].
    intros H1 H2.
    assert (String.length s1 = String.length s2) as Hlen' by lia.
    destruct (IH s2 _ _ n Hlen' H1 H2) as [Ha ->].
    apply digit_of_Some in Hd1 as [? ->]. apply digit_of_Some in Hd2 as [? ->].
    assert (a1 = a2 ∧ d1 = d2) as [-> ->] by lia. done.
Qed.

(** An array index is ["0"], or begins with a digit other than [0]. *)
Lemma array_index_Some k n :
  array_index k = Some n →
  (k = "0" ∧ n = 0%N) ∨
  (∃ c s d, k = String c s ∧ digit_of c = Some d ∧ (1 ≤ d)%N ∧
            parse_digits d s = Some n).
Proof.
  destruct k as [|c s]; [done|].
  destruct (decide (c = "0"%char)) as [->|Hc].
  - destruct s; simpl; [|done]. intros [= <-]. by left.
  - intros Hk. right.
    assert (parse_digits 0 (String c s) = Some n) as Hp.
    { revert Hk. unfold array_index.
      destruct c as [[] [] [] [] [] [] [] []]; try (by destruct Hc);
        lazy beta iota;
        (destruct (parse_digits 0 _) as [m|]; [|done]);
        case_decide; by intros [= ->]. }
    simpl in Hp. destruct (digit_of c) as [d|] eqn:Hd; [|done].
    exists c, s, d. split; [done|]. split; [done|].
    rewrite N.mul_0_r, N.add_0_l in Hp. split; [|done].
    destruct (decide (d = 0%N)) as [->|]; [|lia].
    apply digit_of_Some in Hd as [_ ->]. by destruct Hc.
Qed.

Lemma array_index_inj k1 k2 n :
  array_index k1 = Some n → array_index k2 = Some n → k1 = k2.
Proof.
  intros [[-> ->]|(c1 & s1 & d1 & -> & Hd1 & Hpos1 & Hp1)]%array_index_Some
         [[-> Hn]|(c2 & s2 & d2 & -> & Hd2 & Hpos2 & Hp2)]%array_index_Some.
  - done.
  - apply parse_digits_bounds in Hp2.
    pose proof (N.pow_nonzero 10 (N.of_nat (String.length s2))). nia.
  - subst n. apply parse_digits_bounds in Hp1.
    pose proof (N.pow_nonzero 10 (N.of_nat (String.length s1))). nia.
  - pose proof (parse_digits_bounds _ _ _ Hp1) as Hb1.
    pose proof (parse_digits_bounds _ _ _ Hp2) as Hb2.
    pose proof (proj1 (digit_of_Some _ _ Hd1)) as Hlt1.
    pose proof (proj1 (digit_of_Some _ _ Hd2)) as Hlt2.
    assert (String.length s1 = String.length s2) as Hlen.
    { destruct (decide (String.length s1 < String.length s2)%nat) as [Hlt|].
      { assert (10 * 10 ^ N.of_nat (String.length s1)
                ≤ 10 ^ N.of_nat (String.length s2))%N; [|nia].
        rewrite <- N.pow_succ_r', <- Nat2N.inj_succ.
        apply N.pow_le_mono_r; lia. }
      destruct (decide (String.length s2 < String.length s1)%nat) as [Hlt|];
        [|lia].
      assert (10 * 10 ^ N.of_nat (String.length s2)
              ≤ 10 ^ N.of_nat (String.length s1))%N; [|nia].
      rewrite <- N.pow_succ_r', <- Nat2N.inj_succ.
      apply N.pow_le_mono_r; lia. }
    destruct (parse_digits_inj s1 s2 d1 d2 n Hlen Hp1 Hp2) as [-> ->].
    apply digit_of_Some in Hd1 as [_ ->]. apply digit_of_Some in Hd2 as [_ ->].
    done.
Qed.

End array_indices.

Section key_order.
Context {A : Type}.
Implicit Types (o : object A) (k : Key) (ks : list Key).
Context (P : Key → Prop) `{!∀ k, Decision (P k)}.

#[local] Instance index_le_transitive : Transitive index_le.
Proof. intros x y z. unfold index_le. lia. Qed.

#[local] Instance index_le_total : Total index_le.
Proof. intros x y. unfold index_le. lia. Qed.

Lemma StronglySorted_filter {B} (R : relation B) (Q : B → Prop)
    `{!∀ x, Decision (Q x)} (l : list B) :
  StronglySorted R l → StronglySorted R (filter Q l).
Proof.
  induction 1 as [|x l _ IH Hx]; [constructor|].
  rewrite filter_cons. case_decide; [|done].
  constructor; [done|]. rewrite Forall_forall in Hx. apply Forall_forall.
  intros y [_ Hy]%list_elem_of_filter. by apply Hx.
Qed.

Lemma NoDup_fst_filter {B} (Q : N * B → Prop) `{!∀ x, Decision (Q x)}
    (l : list (N * B)) :
  NoDup l.*1 → NoDup (filter Q l).*1.
Proof.
  intros Hnd. apply (sublist_NoDup _ l.*1); [done|].
  apply fmap_sublist, sublist_filter.
Qed.

Lemma merge_sort_filter (Q : N * Key → Prop) `{!∀ x, Decision (Q x)}
    (l : list (N * Key)) :
  NoDup l.*1 →
  filter Q (merge_sort index_le l) = merge_sort index_le (filter Q l).
Proof.
  intros Hnd. apply (StronglySorted_unique_strong index_le).
  - intros x1 x2 Hx1 Hx2 H12 H21.
    apply list_elem_of_filter in Hx1 as [_ Hx1].
    rewrite merge_sort_Permutation in Hx1, Hx2.
    apply list_elem_of_filter in Hx2 as [_ Hx2].
    unfold index_le in *. destruct x1 as [n1 k1], x2 as [n2 k2]; simpl in *.
    assert (n1 = n2) as -> by lia.
    clear H12 H21. induction l as [|[n k] l IH]; [by apply elem_of_nil in Hx1|].
    simpl in Hnd. apply NoDup_cons in Hnd as [Hn Hnd].
    apply elem_of_cons in Hx1 as [Hx1|Hx1]; apply elem_of_cons in Hx2 as [Hx2|Hx2].
    + congruence.
    + simplify_eq. destruct Hn. apply list_elem_of_fmap. by exists (n, k2).
    + simplify_eq. destruct Hn. apply list_elem_of_fmap. by exists (n, k1).
    + by apply IH.
  - apply StronglySorted_filter, StronglySorted_merge_sort; apply _.
  - apply StronglySorted_merge_sort; apply _.
  - by rewrite !merge_sort_Permutation.
Qed.

Lemma filter_omap_index ks :
  filter (λ x : N * Key, P x.2)
    (omap (λ k, (λ n, (n, k)) <$> array_index k) ks) =
  omap (λ k, (λ n, (n, k)) <$> array_index k) (filter P ks).
Proof.
  induction ks as [|k ks IH]; [done|].
  rewrite (filter_cons P).
  destruct (decide (P k)) as [HP|HP]; simpl;
    destruct (array_index k) as [n|]; simpl; rewrite ?filter_cons; simpl;
    rewrite ?decide_True, ?decide_False by done; try f_equal; exact IH.
Qed.

Lemma NoDup_omap_index ks :
  NoDup ks → NoDup (omap (λ k, (λ n, (n, k)) <$> array_index k) ks).*1.
Proof.
  induction 1 as [|k ks Hk _ IH]; simpl; [constructor|].
  destruct (array_index k) as [n|] eqn:Hn; simpl; [|done].
  constructor; [|done]. intros ([n' k'] & Heq & Hin)%list_elem_of_fmap.
  simpl in Heq. subst n'. apply list_elem_of_omap in Hin as (k0 & Hk0 & Hn0).
  destruct (array_index k0) as [n0|] eqn:Hi0; simplify_eq/=.
  by rewrite (array_index_inj k k' n Hn Hi0) in Hk.
Qed.

Lemma filter_fmap_snd (l : list (N * Key)) :
  filter P l.*2 = (filter (λ x : N * Key, P x.2) l).*2.
Proof.
  induction l as [|[n k] l IH]; [done|].
  rewrite fmap_cons, !filter_cons. simpl.
  case_decide; simpl; try f_equal; exact IH.
Qed.

(** The enumeration of an object with distinct keys, restricted to some
    keys, depends on the restriction of the keys as they were inserted. *)
Lemma filter_Object_keys o o' :
  NoDup o.*1 → NoDup o'.*1 →
  filter P o.*1 = filter P o'.*1 →
  filter P (Object_keys o) = filter P (Object_keys o').
Proof.
  intros Hnd Hnd' Heq. unfold Object_keys. rewrite !filter_app. f_equal.
  - rewrite !filter_fmap_snd. f_equal.
    rewrite !merge_sort_filter by by apply NoDup_omap_index.
    by rewrite !filter_omap_index, Heq.
  - assert (∀ ks, filter P (filter (λ k, array_index k = None) ks) =
                  filter (λ k, array_index k = None) (filter P ks)) as Hcomm.
    { intros ks. rewrite !list_filter_filter. apply list_filter_iff.
      intros k. tauto. }
    by rewrite !Hcomm, Heq.
Qed.

End key_order.

Section order.
Context {From : Type}.
Implicit Types (t : @ProxyTarget From) (f g k : Key) (v : value).

Lemma fst_obj_set_elem {A} (o : object A) k a :
  k ∈ o.*1 → (obj_set o k a).*1 = o.*1.
Proof.
  induction o as [|[k0 a0] o IH]; simpl; [by intros ?%elem_of_nil|].
  case_decide; subst; simpl; [done|].
  rewrite elem_of_cons. intros [?|Hk]; [done|]. f_equal. by apply IH.
Qed.

Lemma fst_obj_set_new {A} (o : object A) k a :
  k ∉ o.*1 → (obj_set o k a).*1 = o.*1 ++ [k].
Proof.
  induction o as [|[k0 a0] o IH]; simpl; [done|].
  rewrite not_elem_of_cons. intros [Hne Hk].
  case_decide; [done|]. simpl. f_equal. by apply IH.
Qed.

Lemma fst_obj_delete {A} (o : object A) k :
  (obj_delete o k).*1 = filter (λ k', k' ≠ k) o.*1.
Proof.
  induction o as [|[k0 a0] o IH]; simpl; [done|].
  rewrite filter_cons. simpl.
  case_decide; subst.
  - by rewrite decide_False by (intros H; by apply H).
  - rewrite decide_True by done. simpl. f_equal. exact IH.
Qed.

Lemma filter_fst_obj_set {A} (P : Key → Prop) `{!∀ k, Decision (P k)}
    (o : object A) k a :
  ¬ P k → filter P (obj_set o k a).*1 = filter P o.*1.
Proof.
  intros Hk. destruct (decide (k ∈ o.*1)) as [Hin|Hin].
  - by rewrite fst_obj_set_elem.
  - rewrite fst_obj_set_new, filter_app by done.
    rewrite filter_cons, decide_False by done. simpl. apply app_nil_r.
Qed.

Lemma fst_obj_write_elem (o : object value) k v :
  k ∈ o.*1 → (obj_write o k v).*1 = o.*1.
Proof.
  intros Hk. rewrite obj_write_set by (by right). by apply fst_obj_set_elem.
Qed.

Lemma filter_fst_obj_write (P : Key → Prop) `{!∀ k, Decision (P k)}
    (o : object value) k v :
  ¬ P k → filter P (obj_write o k v).*1 = filter P o.*1.
Proof.
  intros Hk. unfold obj_write. case_decide; [done|].
  by apply filter_fst_obj_set.
Qed.

(** A read keeps the tombstones and the names in the store that are not
    keys of the specification, in the order of their insertion. *)
Lemma get_same_assigned fuel t k t' :
  reads_only (spec t) (source t) →
  after (get fuel t k).2 = Some t' →
  deletedKeys t' = deletedKeys t ∧
  filter (λ k0, k0 ∉ (spec t).*1) (store t').*1 =
    filter (λ k0, k0 ∉ (spec t).*1) (store t).*1.
Proof.
  intros Hspec Hafter.
  assert (ensures
            (λ t0 t1, deletedKeys t1 = deletedKeys t0 ∧
               filter (λ k0, k0 ∉ (spec t).*1) (store t1).*1 =
                 filter (λ k0, k0 ∉ (spec t).*1) (store t0).*1)
            (λ _ _, True) t (get fuel t k)) as [_ Ht'].
  { apply (get_ensures (spec t) (source t) any_key no_key no_key).
    - done.
    - intros t1 t2 t3 [Hd12 Hf12] [Hd23 Hf23]. split; congruence.
    - intros t0 k0 v [].
    - intros t0 k0 [].
    - intros t0 t1 k0 v Hs0 (_ & _ & _ & Hin) [Hd Hf].
      split; [done|]. simpl. rewrite filter_fst_obj_write; [done|].
      rewrite <- Hs0. tauto.
    - done.
    - done.
    - intros k0 fn _. apply Hspec.
    - done.
    - done. }
  destruct (Ht' _ Hafter) as (_ & _ & ?). done.
Qed.

Lemma filter_comm {B} (P Q : B → Prop)
    `{!∀ x, Decision (P x), !∀ x, Decision (Q x)} (l : list B) :
  filter P (filter Q l) = filter Q (filter P l).
Proof.
  rewrite !list_filter_filter. apply list_filter_iff. intros x. tauto.
Qed.

Lemma filter_all {B} (P : B → Prop) `{!∀ x, Decision (P x)} (l : list B) :
  (∀ x, x ∈ l → P x) → filter P l = l.
Proof.
  induction l as [|x l IH]; intros Hl; [done|].
  rewrite filter_cons_True by (apply Hl; by left).
  f_equal. apply IH. intros y Hy. apply Hl. by right.
Qed.

Lemma Object_keys_obj_delete {A} (o : object A) k :
  NoDup o.*1 →
  Object_keys (obj_delete o k) = filter (λ k', k' ≠ k) (Object_keys o).
Proof.
  intros Hnd.
  rewrite <- (filter_Object_keys (λ k', k' ≠ k) (obj_delete o k) o);
    [|by apply NoDup_obj_delete|done|].
  - symmetry. apply filter_all.
    intros k' Hk'%elem_of_Object_keys%elem_of_obj_delete. tauto.
  - rewrite fst_obj_delete. apply list_filter_filter_l. done.
Qed.

(** X17.  Reading does not change what [ownKeys] lists, nor the order:
    when the property functions only read the record, the list after a
    read is the list before it, although the read stores values. *)
Theorem read_keeps_enumeration fuel t k t' :
  reads_only (spec t) (source t) →
  NoDup (spec t).*1 →
  NoDup (store t).*1 →
  after (get fuel t k).2 = Some t' →
  ownKeys t' = ownKeys t.
Proof.
  intros Hspec Hnd Hstore Hafter.
  destruct (get_NoDup fuel t k t' Hafter) as (Hs & _ & Hstore').
  destruct (get_same_assigned fuel t k t' Hspec Hafter) as [Hd Hf].
  rewrite !ownKeys_eq by (rewrite ?Hs; auto).
  rewrite Hs, Hd. do 2 f_equal.
  apply (filter_Object_keys (λ k0, k0 ∉ (spec t).*1)); auto.
Qed.

(** X18.  An assignment to a name that [ownKeys] lists leaves the list as
    it is; an assignment to a new name that is not an array index adds the
    name at the end of the list, unless the name is [__proto__]: that
    assignment stores nothing and leaves the list as it is. *)
Theorem set_keeps_enumeration t f v :
  NoDup (spec t).*1 →
  NoDup (store t).*1 →
  (f ∈ ownKeys t → ownKeys (set t f v).2 = ownKeys t) ∧
  (f ∉ (spec t).*1 → f ∉ (store t).*1 → array_index f = None →
   f ≠ "__proto__" →
   ownKeys (set t f v).2 = ownKeys t ++ [f]) ∧
  (f ∉ (spec t).*1 → f ∉ (store t).*1 → f = "__proto__" →
   ownKeys (set t f v).2 = ownKeys t).
Proof.
  intros Hnd Hstore.
  pose proof (NoDup_obj_write (store t) f v Hstore) as Hstore'.
  assert (∀ ks : list Key, f ∉ ks →
            filter (λ k, k ∉ deletedKeys t ∖ {[f]}) ks =
            filter (λ k, k ∉ deletedKeys t) ks) as Hother.
  { intros ks Hks. apply filter_iff_elem. intros k Hk.
    rewrite elem_of_difference, elem_of_singleton.
    split; [|tauto]. intros Hk' ?. apply Hk'. split; [done|].
    by intros ->. }
  split; [|split].
  - intros [Hin Hdel]%elem_of_ownKeys.
    rewrite !ownKeys_eq by done. simpl. f_equal.
    + apply list_filter_iff. intros k.
      rewrite elem_of_difference, elem_of_singleton.
      split; [|tauto]. intros Hk Hk'. apply Hk. split; [done|].
      by intros ->.
    + rewrite (filter_Object_keys (λ k, k ∉ (spec t).*1)
                 (obj_write (store t) f v) (store t)); [|done|done|].
      * apply list_filter_iff. intros k.
        rewrite elem_of_difference, elem_of_singleton.
        split; [|tauto]. intros Hk Hk'. apply Hk. split; [done|].
        by intros ->.
      * destruct (decide (f ∈ (store t).*1)) as [Hf|Hf].
        -- by rewrite fst_obj_write_elem.
        -- apply filter_fst_obj_write. tauto.
  - intros Hspec Hnew Hidx Hne.
    assert (Object_keys (obj_write (store t) f v) = Object_keys (store t) ++ [f])
      as Hkeys.
    { rewrite obj_write_set by (by left).
      unfold Object_keys. rewrite fst_obj_set_new by done.
      rewrite omap_app, filter_app. simpl. rewrite Hidx. simpl.
      rewrite app_nil_r, filter_cons, decide_True by done.
      by rewrite <- app_assoc. }
    rewrite !ownKeys_eq by done. simpl. rewrite Hkeys, !filter_app.
    rewrite !(filter_cons _ f), (decide_True (P:=f ∉ (spec t).*1)) by done.
    simpl. rewrite filter_cons, decide_True
      by (rewrite elem_of_difference, elem_of_singleton; tauto).
    rewrite app_assoc. simpl. f_equal. f_equal.
    + apply Hother. by rewrite elem_of_Object_keys.
    + apply Hother.
      intros [_ Hk%elem_of_Object_keys]%list_elem_of_filter. done.
  - intros Hspec Hnew ->.
    rewrite !ownKeys_eq by done. simpl.
    rewrite obj_write_proto by done. f_equal.
    + apply Hother. by rewrite elem_of_Object_keys.
    + apply Hother.
      intros [_ Hk%elem_of_Object_keys]%list_elem_of_filter. done.
Qed.

(** X19.  [delete(f)] takes [f] off the list of [ownKeys] and leaves the
    other names in their order. *)
Theorem delete_keeps_enumeration t f :
  NoDup (spec t).*1 →
  NoDup (store t).*1 →
  ownKeys (deleteProperty t f).2 = filter (λ k, k ≠ f) (ownKeys t).
Proof.
  intros Hnd Hstore.
  pose proof (NoDup_obj_delete (store t) f Hstore) as Hstore'.
  rewrite !ownKeys_eq by done. simpl. rewrite filter_app. f_equal.
  - rewrite list_filter_filter. apply list_filter_iff. intros k.
    rewrite elem_of_union, elem_of_singleton. tauto.
  - rewrite Object_keys_obj_delete by done.
    rewrite !list_filter_filter. apply list_filter_iff. intros k.
    rewrite elem_of_union, elem_of_singleton. tauto.
Qed.

End order.

(** ** The further properties on the records of the test suite *)

Lemma reads_only_person : reads_only person_spec sourceObject.
Proof.
  intros k fn Hfn. simpl in Hfn.
  repeat case_decide; simplify_eq; repeat constructor.
Qed.

Lemma never_assigns_failing : never_assigns failing_spec sourceObject.
Proof.
  intros k fn Hfn. simpl in Hfn.
  repeat case_decide; simplify_eq; repeat constructor.
Qed.

(** [mapping.test.ts], "serializes as expected": after [person.foo = 'bar'],
    [JSON.stringify(person)] writes the three fields of the specification
    and [foo], and invokes each property function once. *)
Example person_serializes :
  ∃ t1, stringify 2 person_foo =
          (["name"; "phone"; "contactInfo"],
           Returned _
             [("name", VString "Lando Calrissian");
              ("phone", VString "555-123-1234");
              ("contactInfo",
               VString (String.append "Lando Calrissian"
                          (String "010" "555-123-1234")));
              ("foo", VString "bar")] t1).
Proof. eexists. reflexivity. Qed.

Lemma has_specification_key_witness :
  "phone" ∈ person_spec.*1 ∧
  has (deleteProperty (set person_read "foo" (VString "bar")).2 "phone").2
    "phone" = true.
Proof.
  assert ("phone" ∈ person_spec.*1) as Hin
    by (apply (bool_decide_unpack _); vm_compute; exact I).
  split; [exact Hin|].
  exact (has_specification_key person_spec sourceObject _ "phone" Hin
           reachable_person_read).
Defined.

Lemma absent_name_witness :
  (("toJSON" ∉ (store person_read).*1) ∧
   ("toJSON" ∉ (spec person_read).*1) ∧
   getOwnPropertyDescriptor person_read "toJSON" = None ∧
   ("toJSON" ∉ ownKeys person_read) ∧
   get 1 person_read "toJSON" = ([], Returned value VUndefined person_read)) ∧
  (("toString" ∉ (store person_read).*1) ∧
   ("toString" ∉ (spec person_read).*1) ∧
   has person_read "toString" = true ∧
   get 1 person_read "toString" =
     ([], Returned value (VObject 6) person_read)).
Proof.
  assert ("toJSON" ∉ (store person_read).*1) as Hstore
    by (apply (bool_decide_unpack _); vm_compute; exact I).
  assert ("toJSON" ∉ (spec person_read).*1) as Hspec
    by (apply (bool_decide_unpack _); vm_compute; exact I).
  assert ("toString" ∉ (store person_read).*1) as Hstore'
    by (apply (bool_decide_unpack _); vm_compute; exact I).
  assert ("toString" ∉ (spec person_read).*1) as Hspec'
    by (apply (bool_decide_unpack _); vm_compute; exact I).
  split.
  - split; [exact Hstore|]. split; [exact Hspec|].
    destruct (absent_name 0 person_read "toJSON" Hstore Hspec)
      as (Hdesc & Hkeys & _ & Hget & _).
    split; [exact Hdesc|]. split; [exact Hkeys|]. apply Hget.
    apply (bool_decide_unpack _); vm_compute; exact I.
  - split; [exact Hstore'|]. split; [exact Hspec'|].
    destruct (absent_name 0 person_read "toString" Hstore' Hspec')
      as (_ & _ & Hhas & _ & Hget).
    assert ("toString" ∈ Object_prototype.*1) as Hp
      by (apply (bool_decide_unpack _); vm_compute; exact I).
    split; [by apply Hhas|]. apply Hget; [exact Hp|].
    apply (bool_decide_unpack _); vm_compute; exact I.
Defined.

Lemma set_and_delete_compose_witness :
  ("phone" ≠ "__proto__" ∨ prototype_value (VString "555") = false) ∧
  set (set person_read "phone" (VString "555")).2 "phone" (VString "556") =
    set person_read "phone" (VString "556") ∧
  deleteProperty (set person_read "phone" (VString "555")).2 "phone" =
    deleteProperty person_read "phone".
Proof.
  assert ("phone" ≠ "__proto__" ∨ prototype_value (VString "555") = false)
    as Hf by (by left).
  split; [exact Hf|].
  exact (set_and_delete_compose person_read "phone" (VString "555")
           (VString "556") Hf).
Defined.

Lemma set_and_delete_frame_witness :
  "name" ≠ "phone" ∧
  getOwnPropertyDescriptor (deleteProperty person_read "phone").2 "name" =
    getOwnPropertyDescriptor person_read "name" ∧
  has (set person_read "phone" (VString "555")).2 "name" =
    has person_read "name".
Proof.
  assert ("name" ≠ "phone") as Hne by done.
  assert ("phone" ≠ "__proto__" ∨ prototype_value (VString "555") = false)
    as Hf by (by left).
  split; [exact Hne|].
  destruct (set_and_delete_frame person_read "phone" (VString "555") "name"
              Hne Hf)
    as [(_ & _ & Hhas & _) (_ & _ & _ & Hdesc)].
  split; [exact Hdesc|exact Hhas].
Defined.

Lemma get_settled_is_lookup_witness :
  settled person_read "name" ∧
  get 1 person_read "name" =
    ([], Returned value (answer person_read "name") person_read) ∧
  answer person_read "name" = VString "Lando Calrissian".
Proof.
  assert (settled person_read "name") as Hs.
  { left. unfold materialized. apply (bool_decide_unpack _); vm_compute; exact I. }
  split; [exact Hs|].
  destruct (get_settled_is_lookup 0 person_read "name" Hs) as (Hget & _ & _).
  split; [exact Hget|reflexivity].
Defined.

Lemma read_memoizes_only_witness :
  reads_only (spec person) (source person) ∧
  memoized_only person person_read ∧
  settled person_read "contactInfo".
Proof.
  split; [exact reads_only_person|].
  destruct (read_memoizes_only 2 person "contactInfo" _ _ person_read
              reads_only_person eq_refl eq_refl) as [Hm Hv].
  split; [exact Hm|].
  destruct (Hv _ eq_refl) as (_ & _ & Hs).
  apply Hs; apply (bool_decide_unpack _); vm_compute; exact I.
Defined.

Lemma read_is_invisible_witness :
  reads_only (spec person) (source person) ∧
  after (get 2 person "contactInfo").2 = Some person_read ∧
  ownKeys person_read ≡ₚ ownKeys person ∧
  has person_read "foo" = has person "foo".
Proof.
  split; [exact reads_only_person|]. split; [reflexivity|].
  destruct (read_is_invisible 2 person "contactInfo" person_read
              reads_only_person eq_refl) as (Hhas & Hkeys & _).
  split; [exact Hkeys|apply Hhas].
Defined.

Lemma stringify_memoizes_witness :
  reads_only (spec person_foo) (source person_foo) ∧
  has person_foo "toJSON" = false ∧
  ∃ es t1,
    stringify 2 person_foo =
      (["name"; "phone"; "contactInfo"], Returned _ es t1) ∧
    memoized_only person_foo t1 ∧
    es = entries t1 ["name"; "phone"; "contactInfo"; "foo"] ∧
    ∃ es', stringify 1 t1 = ([], Returned _ es' t1) ∧ es' ≡ₚ es.
Proof.
  split; [exact reads_only_person|]. split; [reflexivity|].
  assert (∃ es t1, stringify 2 person_foo =
            (["name"; "phone"; "contactInfo"], Returned _ es t1))
    as (es & t1 & Heq).
  { eexists _, _. vm_compute. reflexivity. }
  exists es, t1. split; [exact Heq|].
  destruct (stringify_memoizes 2 0 person_foo _ es t1 reads_only_person
              eq_refl Heq) as (Hm & Hes & Hagain).
  split; [exact Hm|]. split; [exact Hes|exact Hagain].
Defined.

Lemma reads_descend_failing :
  reads_descend person_rank failing_spec sourceObject.
Proof.
  intros k fn Hfn. simpl in Hfn.
  repeat case_decide; simplify_eq; repeat constructor.
Qed.

Lemma get_raises_own_errors_only_witness :
  never_assigns (spec (mapping failing_spec sourceObject))
    (source (mapping failing_spec sourceObject)) ∧
  reads_descend person_rank (spec (mapping failing_spec sourceObject))
    (source (mapping failing_spec sourceObject)) ∧
  (person_rank "contactInfo" < 2)%nat ∧
  (∃ t1,
     get 2 (mapping failing_spec sourceObject) "contactInfo" =
       (["contactInfo"; "name"; "phone"],
        Thrown value (Exception (VString "no phone")) t1)) ∧
  ∃ tr t',
    (∃ v, get 2 (mapping failing_spec sourceObject) "contactInfo" =
            (tr, Returned value v t')) ∨
    (∃ e, get 2 (mapping failing_spec sourceObject) "contactInfo" =
            (tr, Thrown value (Exception e) t')).
Proof.
  assert (person_rank "contactInfo" < 2)%nat as Hrank by (vm_compute; lia).
  split; [exact never_assigns_failing|].
  split; [exact reads_descend_failing|]. split; [exact Hrank|].
  split; [eexists; reflexivity|].
  exact (get_raises_own_errors_only person_rank 2
           (mapping failing_spec sourceObject) "contactInfo"
           never_assigns_failing reads_descend_failing Hrank).
Defined.

Lemma reads_descend_person : reads_descend person_rank person_spec sourceObject.
Proof.
  intros k fn Hfn. simpl in Hfn.
  repeat case_decide; simplify_eq; repeat constructor.
Qed.

Lemma delete_forgets_assigned_name_witness :
  ("foo" ∉ (spec person_foo).*1) ∧
  has person_foo "foo" = true ∧
  has (deleteProperty person_foo "foo").2 "foo" = false ∧
  getOwnPropertyDescriptor (deleteProperty person_foo "foo").2 "foo" = None ∧
  (has (deleteProperty person_foo "foo").2 "foo" = true ↔
   "foo" ∈ Object_prototype.*1).
Proof.
  assert ("foo" ∉ (spec person_foo).*1) as Hspec
    by (apply (bool_decide_unpack _); vm_compute; exact I).
  split; [exact Hspec|]. do 2 (split; [reflexivity|]).
  destruct (delete_forgets_assigned_name 0 person_foo "foo" Hspec)
    as (Hdesc & _ & _ & Hhas).
  split; [exact Hdesc|exact Hhas].
Defined.

Lemma ranked_reads_complete_witness :
  reads_descend person_rank (spec person) (source person) ∧
  (person_rank "contactInfo" < 2)%nat ∧
  ∃ tr c t', get 2 person "contactInfo" = (tr, c) ∧ after c = Some t'.
Proof.
  assert (person_rank "contactInfo" < 2)%nat as Hrank by (vm_compute; lia).
  split; [exact reads_descend_person|]. split; [exact Hrank|].
  exact (ranked_reads_complete person_rank person "contactInfo" 2
           reads_descend_person Hrank).
Defined.

Lemma self_read_never_returns_witness :
  unset (mapping cyclic_spec sourceObject) "f" ∧
  get 3 (mapping cyclic_spec sourceObject) "f" =
    (["f"; "f"; "f"], OutOfFuel value).
Proof.
  assert (unset (mapping cyclic_spec sourceObject) "f") as Hu.
  { unfold unset. split; [|split; [|split]]; apply (bool_decide_unpack _);
      vm_compute; exact I. }
  split; [exact Hu|].
  exact (self_read_never_returns (mapping cyclic_spec sourceObject) "f"
           _ _ 3 Hu eq_refl eq_refl).
Defined.

Lemma NoDup_person_spec : NoDup person_spec.*1.
Proof. apply (bool_decide_unpack _); vm_compute; exact I. Qed.

Lemma NoDup_person_read : NoDup (store person_read).*1.
Proof. apply (bool_decide_unpack _); vm_compute; exact I. Qed.

Lemma read_keeps_enumeration_witness :
  reads_only (spec person_foo) (source person_foo) ∧
  NoDup (spec person_foo).*1 ∧
  NoDup (store person_foo).*1 ∧
  ∃ t1,
    after (get 2 person_foo "contactInfo").2 = Some t1 ∧
    (store t1).*1 = ["foo"; "name"; "phone"; "contactInfo"] ∧
    ownKeys person_foo = ["name"; "phone"; "contactInfo"; "foo"] ∧
    ownKeys t1 = ownKeys person_foo.
Proof.
  assert (NoDup (store person_foo).*1) as Hstore
    by (apply (bool_decide_unpack _); vm_compute; exact I).
  split; [exact reads_only_person|]. split; [exact NoDup_person_spec|].
  split; [exact Hstore|].
  eexists. split; [reflexivity|]. split; [reflexivity|].
  split; [reflexivity|].
  exact (read_keeps_enumeration 2 person_foo "contactInfo" _
           reads_only_person NoDup_person_spec Hstore eq_refl).
Defined.

Lemma set_keeps_enumeration_witness :
  NoDup (spec person_read).*1 ∧
  NoDup (store person_read).*1 ∧
  ownKeys (set person_read "name" (VString "Updated Name")).2 =
    ownKeys person_read ∧
  ownKeys (set person_read "address" (VString "123 Street St.")).2 =
    ownKeys person_read ++ ["address"] ∧
  ownKeys (set person_read "__proto__" (VString "x")).2 = ownKeys person_read.
Proof.
  split; [exact NoDup_person_spec|]. split; [exact NoDup_person_read|].
  destruct (set_keeps_enumeration person_read "name" (VString "Updated Name")
              NoDup_person_spec NoDup_person_read) as (Hlisted & _ & _).
  destruct (set_keeps_enumeration person_read "address"
              (VString "123 Street St.") NoDup_person_spec NoDup_person_read)
    as (_ & Hnew & _).
  destruct (set_keeps_enumeration person_read "__proto__" (VString "x")
              NoDup_person_spec NoDup_person_read) as (_ & _ & Hproto).
  split; [|split].
  - apply Hlisted. apply (bool_decide_unpack _); vm_compute; exact I.
  - apply Hnew; [apply (bool_decide_unpack _); vm_compute; exact I..
                |reflexivity|done].
  - apply Hproto; [apply (bool_decide_unpack _); vm_compute; exact I..|done].
Defined.

Lemma delete_keeps_enumeration_witness :
  NoDup (spec person_read).*1 ∧
  NoDup (store person_read).*1 ∧
  ownKeys (deleteProperty person_read "name").2 = ["phone"; "contactInfo"] ∧
  ownKeys (deleteProperty person_read "name").2 =
    filter (λ k, k ≠ "name") (ownKeys person_read).
Proof.
  split; [exact NoDup_person_spec|]. split; [exact NoDup_person_read|].
  split; [reflexivity|].
  exact (delete_keeps_enumeration person_read "name"
           NoDup_person_spec NoDup_person_read).
Defined.

